(** * openapi-mcp-generator: the document-to-tool compiler, verified

    A shallow embedding of [src/parser/extract-tools.ts],
    [src/utils/code-gen.ts] and [src/utils/security.ts], and the theorems
    that relate the specification to that code.

    Modelling conventions.
    - A JavaScript string is a [string] of 8-bit characters. Case
      conversion is that of the ASCII letters and leaves every other
      character as it is: this is what [toLowerCase] and [toUpperCase] do
      where the code applies them after replacing the characters outside
      [[a-zA-Z0-9_-]], and on ASCII text elsewhere.
    - A number that counts ([counter]) is a [nat]; a time in milliseconds
      is a [Z].
    - A value that may be [undefined] is an [option]; where the code also
      tests for [null] the three cases are kept apart ([JsOpt]).
    - An object used as a dictionary whose iteration order the code relies
      on ([Object.entries]) is an association list in that order; a
      dictionary that is only looked up is a [gmap]; a [Set] is a [gset].
    - The schema objects of a dereferenced document form a graph that may
      contain cycles: they live in a [Heap] and are named by location.
    - Recursion of the source is structural recursion on a fuel that counts
      the call-stack frames available; [None] is the [RangeError] of an
      exhausted stack. *)

From stdpp Require Import gmap strings list pretty.
From Stdlib Require Import Ascii String ZArith Lia.

Set Warnings "-register-all,-clear-no-such-hyp".

Open Scope string_scope.
Open Scope list_scope.
Open Scope nat_scope.
Open Scope stdpp_scope.

(** ** JavaScript values *)

(** A property that can be missing, [null], or hold a value. *)
Inductive JsOpt (A : Type) : Type :=
| Undefined
| Null
| Val (a : A).
Arguments Undefined {A}.
Arguments Null {A}.
Arguments Val {A} a.

(** Truthiness of an optional string: [undefined] and [''] are falsy. *)
Definition truthy (s : option string) : bool :=
  match s with
  | Some (String _ _) => true
  | _ => false
  end.

(** [a || b] on optional strings. *)
Definition orElse (a b : option string) : option string :=
  if truthy a then a else b.

(** ** Strings: the ASCII fragment of [String.prototype] *)
Module JsString.

Definition code (c : ascii) : nat := nat_of_ascii c.

Definition between (lo hi : nat) (c : ascii) : bool :=
  (lo <=? code c) && (code c <=? hi).

(** [a-z], [A-Z], [0-9] *)
Definition isLower : ascii -> bool := between 97 122.
Definition isUpper : ascii -> bool := between 65 90.
Definition isDigit : ascii -> bool := between 48 57.

Definition toLowerChar (c : ascii) : ascii :=
  if isUpper c then ascii_of_nat (code c + 32) else c.

Definition toUpperChar (c : ascii) : ascii :=
  if isLower c then ascii_of_nat (code c - 32) else c.

Fixpoint map (f : ascii -> ascii) (s : string) : string :=
  match s with
  | EmptyString => EmptyString
  | String c r => String (f c) (map f r)
  end.

Definition toLowerCase : string -> string := map toLowerChar.
Definition toUpperCase : string -> string := map toUpperChar.

Fixpoint In (c : ascii) (s : string) : Prop :=
  match s with
  | EmptyString => False
  | String d r => c = d \/ In c r
  end.

Definition eqb_char (a b : ascii) : bool := Ascii.eqb a b.

(** [s.startsWith(c)] and [s.endsWith(c)] for a one-character [c]. *)
Definition startsWithChar (c : ascii) (s : string) : bool :=
  match s with
  | String d _ => eqb_char c d
  | EmptyString => false
  end.

Fixpoint endsWithChar (c : ascii) (s : string) : bool :=
  match s with
  | EmptyString => false
  | String d EmptyString => eqb_char c d
  | String _ r => endsWithChar c r
  end.

(** [s.split(sep)] for a one-character separator: never the empty list. *)
Fixpoint split (sep : ascii) (s : string) : list string :=
  match s with
  | EmptyString => [EmptyString]
  | String c r =>
      if eqb_char c sep then EmptyString :: split sep r
      else match split sep r with
           | p :: ps => String c p :: ps
           | [] => [String c EmptyString]
           end
  end.

(** The line terminators, which the pattern [.] does not match. *)
Definition isLineTerminator (c : ascii) : bool :=
  (code c =? 10) || (code c =? 13).

End JsString.

(** ** [src/utils/code-gen.ts]: synthesized operation identifiers *)
Module CodeGen.
Import JsString.

(** The separators of the pattern [[-_\/]]. *)
Definition isSeparator (c : ascii) : bool :=
  eqb_char c "-" || eqb_char c "_" || eqb_char c "/".

(** [.replace(/[-_\/](.)/g, (_, char) => char.toUpperCase())]: a separator
    and the character after it become that character in upper case; the
    scan resumes after the pair. *)
Fixpoint upperAfterSeparators (s : string) : string :=
  match s with
  | EmptyString => EmptyString
  | String c r =>
      if isSeparator c then
        match r with
        | String d r' =>
            if isLineTerminator d then String c (upperAfterSeparators r)
            else String (toUpperChar d) (upperAfterSeparators r')
        | EmptyString => String c EmptyString
        end
      else String c (upperAfterSeparators r)
  end.

(** [.replace(/^{/, '')] *)
Definition dropLeadingBrace (s : string) : string :=
  match s with
  | String c r => if eqb_char c "{" then r else s
  | EmptyString => s
  end.

(** [.replace(/}$/, '')] *)
Fixpoint dropTrailingBrace (s : string) : string :=
  match s with
  | EmptyString => EmptyString
  | String c EmptyString => if eqb_char c "}" then EmptyString else s
  | String c r => String c (dropTrailingBrace r)
  end.

(** [.replace(/^./, (char) => char.toUpperCase())] *)
Definition upperFirst (s : string) : string :=
  match s with
  | String c r => if isLineTerminator c then s else String (toUpperChar c) r
  | EmptyString => s
  end.

Definition titleCase (str : string) : string :=
  upperFirst
    (dropTrailingBrace
       (dropLeadingBrace
          (upperAfterSeparators (toLowerCase str)))).

(** The body of [parts.forEach((part, index) => ...)]; the index is the
    last one exactly when no part follows. *)
Fixpoint appendParts (parts : list string) (name : string) : string :=
  match parts with
  | [] => name
  | part :: rest =>
      let name' :=
        if startsWithChar "{" part && endsWithChar "}" part then
          match rest with
          | [] => name +:+ "By" +:+ titleCase part
          | _ => name
          end
        else name +:+ titleCase part in
      appendParts rest name'
  end.

(** [name.charAt(0).toUpperCase() + name.slice(1)] *)
Definition capitalize (name : string) : string :=
  match name with
  | String c r => String (toUpperChar c) r
  | EmptyString => EmptyString
  end.

Definition nonEmpty (p : string) : bool :=
  match p with
  | EmptyString => false
  | _ => true
  end.

Definition generateOperationId (method path : string) : string :=
  let parts := List.filter nonEmpty (split "/" path) in
  let name := appendParts parts (toLowerCase method) in
  let name := if String.eqb name (toLowerCase method) then name +:+ "Root" else name in
  capitalize name.

End CodeGen.

(** ** Schemas *)

(** The [type] keyword: one name, or an array of names. *)
Inductive SchemaType : Type :=
| TName (t : string)
| TArray (ts : list string).

Global Instance SchemaType_eq_dec : EqDecision SchemaType.
Proof. solve_decision. Defined.

(** A location of the document's object graph. *)
Definition loc := nat.

(** A value found where a schema is expected: a schema object (by location,
    so that two properties can hold the same object, and an object can hold
    itself), a boolean schema, or anything else ([null], a number, ...). *)
Inductive SchemaValue : Type :=
| VObject (l : loc)
| VBoolean (b : bool)
| VOther.

(** An OpenAPI schema object or reference object. The keywords the
    translator reads are fields; the remaining ones are carried in [s_rest]
    with their values kept opaque. *)
Record SchemaObject : Type := {
  s_ref : option string;                               (* $ref *)
  s_type : option SchemaType;
  s_nullable : bool;
  s_properties : option (list (string * SchemaValue)); (* Object.entries order *)
  s_items : option SchemaValue;
  s_description : option string;
  s_required : option (list string);
  s_rest : list (string * string)
}.

Definition Heap := loc -> SchemaObject.

(** A JSON Schema as the translator returns it. The translator copies a
    node shallowly, so what it does not translate stays a reference to the
    source object ([JSource]). *)
Inductive JSONSchema : Type :=
| JBoolean (b : bool)
| JSource (l : loc)
| JOther
| JObject (type : option SchemaType)
          (properties : option (list (string * JSONSchema)))
          (items : option JSONSchema)
          (description : option string)
          (required : option (list string))
          (rest : list (string * string)).

Module Json.

Definition type (j : JSONSchema) : option SchemaType :=
  match j with
  | JObject t _ _ _ _ _ => t
  | _ => None
  end.

Definition properties (j : JSONSchema) : option (list (string * JSONSchema)) :=
  match j with
  | JObject _ p _ _ _ _ => p
  | _ => None
  end.

Definition items (j : JSONSchema) : option JSONSchema :=
  match j with
  | JObject _ _ i _ _ _ => i
  | _ => None
  end.

Definition description (j : JSONSchema) : option string :=
  match j with
  | JObject _ _ _ d _ _ => d
  | _ => None
  end.

(** [j.description = d] (an assignment; no effect on a boolean schema,
    which the callers exclude by [typeof j === 'object']). *)
Definition setDescription (d : option string) (j : JSONSchema) : JSONSchema :=
  match j with
  | JObject t p i _ r x => JObject t p i d r x
  | _ => j
  end.

(** [typeof j === 'object'] *)
Definition isObject (j : JSONSchema) : bool :=
  match j with
  | JBoolean _ => false
  | _ => true
  end.

(** The value a shallow copy shares with its source. *)
Definition ofSource (v : SchemaValue) : JSONSchema :=
  match v with
  | VObject l => JSource l
  | VBoolean b => JBoolean b
  | VOther => JOther
  end.

(** [{ type: 'object' }] *)
Definition anyObject : JSONSchema :=
  JObject (Some (TName "object")) None None None None [].

End Json.

(** The array indices among the keys of an object: the canonical decimal
    form of an integer from 0 to 2^32 - 2. *)
Fixpoint digitsValue (acc : N) (s : string) : option N :=
  match s with
  | EmptyString => Some acc
  | String c r =>
      if JsString.isDigit c
      then digitsValue (acc * 10 + N.of_nat (JsString.code c - 48))%N r
      else None
  end.

Definition arrayIndex (key : string) : option N :=
  match key with
  | EmptyString => None
  | String c r =>
      if JsString.eqb_char c "0" && negb (String.eqb r EmptyString) then None
      else
        match digitsValue 0 key with
        | Some n => if (n <? 4294967295)%N then Some n else None
        | None => None
        end
  end.

(** [key in obj], for an own key. *)
Definition objHas {A : Type} (key : string) (obj : list (string * A)) : bool :=
  existsb (fun kv => String.eqb kv.1 key) obj.

(** The value of an own key is replaced; the key keeps its place. *)
Fixpoint objReplace {A : Type} (key : string) (value : A) (obj : list (string * A))
  : list (string * A) :=
  match obj with
  | [] => []
  | (k, v) :: rest =>
      if String.eqb k key then (k, value) :: rest
      else (k, v) :: objReplace key value rest
  end.

(** A new array index goes among the array indices, which come first and
    in ascending order. *)
Fixpoint objInsertIndex {A : Type} (n : N) (key : string) (value : A)
    (obj : list (string * A)) : list (string * A) :=
  match obj with
  | [] => [(key, value)]
  | (k, v) :: rest =>
      match arrayIndex k with
      | Some m =>
          if (m <? n)%N then (k, v) :: objInsertIndex n key value rest
          else (key, value) :: obj
      | None => (key, value) :: obj
      end
  end.

(** [obj[key] = value] on an object the code has made from [{}], kept as
    its own entries in the order [Object.entries] lists them. An own key
    keeps its place and gets the value. A new key that is an array index
    goes among the array indices; any other new key goes last. The key
    [__proto__] is no own key of such an object: the assignment runs the
    setter of [Object.prototype], which changes the prototype of the object
    at most, and adds no entry. Nothing here reads through a prototype. *)
Definition objSet {A : Type} (key : string) (value : A) (obj : list (string * A))
  : list (string * A) :=
  if String.eqb key "__proto__" then obj
  else if objHas key obj then objReplace key value obj
  else
    match arrayIndex key with
    | Some n => objInsertIndex n key value obj
    | None => obj ++ [(key, value)]
    end.

(** [obj[key]] *)
Fixpoint objGet {A : Type} (key : string) (obj : list (string * A)) : option A :=
  match obj with
  | [] => None
  | (k, v) :: rest => if String.eqb k key then Some v else objGet key rest
  end.

(** [Object.keys(obj)] *)
Definition objKeys {A : Type} (obj : list (string * A)) : list string := obj.*1.

(** [for (...) { r = f(x); ... }] where [f] may throw: the results in order,
    or the first failure. *)
Fixpoint forEachM {A B : Type} (f : A -> option B) (l : list A) : option (list B) :=
  match l with
  | [] => Some []
  | x :: r =>
      match f x with
      | None => None
      | Some y =>
          match forEachM f r with
          | None => None
          | Some ys => Some (y :: ys)
          end
      end
  end.

(** ** [src/parser/extract-tools.ts]: schema translation *)
Module SchemaTranslator.

(** The keywords [delete]d from the copy (besides [nullable], a field). *)
Definition openApiOnly (key : string) : bool :=
  bool_decide (key ∈ ["example"; "xml"; "externalDocs"; "deprecated";
                      "readOnly"; "writeOnly"]).

Definition deleteOpenApiOnly (rest : list (string * string)) : list (string * string) :=
  List.filter (fun kv => negb (openApiOnly kv.1)) rest.

(** [if (schema.type === 'integer') jsonSchema.type = 'number'] *)
Definition integerToNumber (t : option SchemaType) : option SchemaType :=
  match t with
  | Some (TName n) => if String.eqb n "integer" then Some (TName "number") else t
  | _ => t
  end.

(** The three branches of [if (schema.nullable) { ... }], on the type of
    the copy: an array, a string, or none. The [push] of the first branch
    also extends the array of the source, which the shallow copy shares; a
    later translation of that source finds ['null'] there and adds nothing,
    so the results are those of this function. *)
Definition foldNull (t : option SchemaType) : option SchemaType :=
  match t with
  | Some (TArray ts) =>
      if bool_decide ("null" ∈ ts) then Some (TArray ts)
      else Some (TArray (ts ++ ["null"]))
  | Some (TName n) => Some (TArray [n; "null"])
  | None => Some (TName "null")
  end.

(** The type of the copy after integer normalisation and null folding. *)
Definition mappedType (schema : SchemaObject) : option SchemaType :=
  let t := integerToNumber (s_type schema) in
  if s_nullable schema then foldNull t else t.

(** Lines 199-206, the body of [for (const [key, propSchema] of
    Object.entries(jsonSchema.properties))]: the entry added to
    [mappedProps], if any. [recur] is the recursive call. *)
Definition mapProperty (recur : loc -> option JSONSchema) (entry : string * SchemaValue)
  : option (list (string * JSONSchema)) :=
  match entry.2 with
  | VObject p =>
      match recur p with
      | Some j => Some [(entry.1, j)]
      | None => None
      end
  | VBoolean b => Some [(entry.1, JBoolean b)]
  | VOther => Some []
  end.

(** Lines 196-209: the [properties] of the copy. They are translated where
    the type of the copy is ['object'], and stay those of the source
    otherwise. *)
Definition mapProperties (recur : loc -> option JSONSchema) (type : option SchemaType)
    (properties : option (list (string * SchemaValue)))
  : option (option (list (string * JSONSchema))) :=
  match properties with
  | Some props =>
      if bool_decide (type = Some (TName "object")) then
        match forEachM (mapProperty recur) props with
        | Some mapped =>
            Some (Some (foldl (fun o kv => objSet kv.1 kv.2 o) [] (List.concat mapped)))
        | None => None
        end
      else Some (Some (prod_map id Json.ofSource <$> props))
  | None => Some None
  end.

(** Lines 212-216: the [items] of the copy. *)
Definition mapItems (recur : loc -> option JSONSchema) (type : option SchemaType)
    (items : option SchemaValue) : option (option JSONSchema) :=
  match items with
  | Some (VObject i) =>
      if bool_decide (type = Some (TName "array")) then
        match recur i with
        | Some j => Some (Some j)
        | None => None
        end
      else Some (Some (JSource i))
  | Some v => Some (Some (Json.ofSource v))
  | None => Some None
  end.

(** Lines 157-219. *)
Fixpoint mapOpenApiSchemaToJsonSchema (fuel : nat) (h : Heap) (l : loc)
  : option JSONSchema :=
  match fuel with
  | 0 => None
  | S fuel' =>
      let schema := h l in
      match s_ref schema with
      | Some _ => Some Json.anyObject
      | None =>
          let type := mappedType schema in
          let recur := mapOpenApiSchemaToJsonSchema fuel' h in
          match mapProperties recur type (s_properties schema),
                mapItems recur type (s_items schema) with
          | Some properties, Some items =>
              Some (JObject type properties items (s_description schema)
                      (s_required schema) (deleteOpenApiOnly (s_rest schema)))
          | _, _ => None
          end
      end
  end.

End SchemaTranslator.

(** ** The OpenAPI document *)

(** [OpenAPIV3.HttpMethods], in the order of the enum's declaration (the
    order [Object.values] lists it in). *)
Inductive HttpMethods : Type :=
| GET | PUT | POST | DELETE | OPTIONS | HEAD | PATCH | TRACE.

Definition methodName (m : HttpMethods) : string :=
  match m with
  | GET => "get" | PUT => "put" | POST => "post" | DELETE => "delete"
  | OPTIONS => "options" | HEAD => "head" | PATCH => "patch" | TRACE => "trace"
  end.

Definition allMethods : list HttpMethods :=
  [GET; PUT; POST; DELETE; OPTIONS; HEAD; PATCH; TRACE].

(** A security requirement object: scheme name to requested scopes. *)
Definition SecurityRequirementObject := list (string * list string).

Record ParameterObject : Type := {
  p_name : string;
  p_in : string;
  p_description : option string;
  p_required : bool;
  p_schema : option loc
}.

Record MediaTypeObject : Type := {
  mt_schema : option loc
}.

Record RequestBodyObject : Type := {
  rb_description : option string;
  rb_content : option (list (string * MediaTypeObject)); (* Object.entries order *)
  rb_required : bool
}.

Record OperationObject : Type := {
  op_operationId : option string;
  op_description : option string;
  op_summary : option string;
  op_parameters : option (list ParameterObject);
  op_requestBody : option RequestBodyObject;
  op_security : JsOpt (list SecurityRequirementObject)
}.

(** A path item: the operation under each method, if any. *)
Definition PathItemObject := HttpMethods -> option OperationObject.

Record Document : Type := {
  api_paths : option (list (string * option PathItemObject)); (* Object.entries order *)
  api_security : option (list SecurityRequirementObject)
}.

(** [src/types/index.ts] *)
Record McpToolDefinition : Type := {
  name : string;
  description : string;
  inputSchema : JSONSchema;
  method : string;
  pathTemplate : string;
  parameters : list ParameterObject;
  executionParameters : list (string * string);  (* { name, in } *)
  requestBodyContentType : option string;
  securityRequirements : list SecurityRequirementObject;
  operationId : string
}.

(** [for (x of l) { st = step(st, x) }] where [step] may throw. *)
Fixpoint foldlM {S A : Type} (step : S -> A -> option S) (st : S) (l : list A)
  : option S :=
  match l with
  | [] => Some st
  | x :: r =>
      match step st x with
      | Some st' => foldlM step st' r
      | None => None
      end
  end.

(** ** [src/parser/extract-tools.ts]: operation extraction and naming *)
Module ExtractTools.
Import JsString SchemaTranslator.

(** [.replace(/\./g, '_')] *)
Definition replaceDots : string -> string :=
  JsString.map (fun c => if eqb_char c "." then "_"%char else c).

(** A character the class [[a-z0-9_-]] matches under the flag [i]. *)
Definition isNameChar (c : ascii) : bool :=
  isLower c || isUpper c || isDigit c || eqb_char c "_" || eqb_char c "-".

(** [.replace(/[^a-z0-9_-]/gi, '_')] *)
Definition replaceOthers : string -> string :=
  JsString.map (fun c => if isNameChar c then c else "_"%char).

(** Line 34: the name made MCP-compatible. *)
Definition sanitizeName (baseName : string) : string :=
  toLowerCase (replaceOthers (replaceDots baseName)).

(** [`${baseName}_${counter}`] *)
Definition suffixed (baseName : string) (counter : nat) : string :=
  baseName +:+ "_" +:+ pretty counter.

(** Lines 36-40: [while (usedNames.has(finalToolName)) finalToolName =
    `${baseName}_${counter++}`]. The loop is iterated at most [fuel + 1]
    times; [uniqueName] below gives it one iteration more than there are
    used names, which [uniqueNameLoop_returns] shows is enough. *)
Fixpoint uniqueNameLoop (fuel : nat) (usedNames : gset string)
    (baseName finalToolName : string) (counter : nat) : option string :=
  if bool_decide (finalToolName ∈ usedNames) then
    match fuel with
    | 0 => None
    | S fuel' =>
        uniqueNameLoop fuel' usedNames baseName
          (suffixed baseName counter) (S counter)
    end
  else Some finalToolName.

Definition uniqueName (usedNames : gset string) (baseName : string)
  : option string :=
  uniqueNameLoop (size usedNames) usedNames baseName baseName 1.

(** [a || b] where [b] is a string that is never empty. *)
Definition orDefault (a : option string) (b : string) : string :=
  match a with
  | Some (String _ _ as s) => s
  | _ => b
  end.

(** The body of [allParameters.forEach(param => ...)], lines 96-106. *)
Definition addParameter (fuel : nat) (h : Heap)
    (st : list (string * JSONSchema) * list string) (param : ParameterObject)
  : option (list (string * JSONSchema) * list string) :=
  let '(properties, required) := st in
  match p_name param, p_schema param with
  | String _ _, Some s =>
      match mapOpenApiSchemaToJsonSchema fuel h s with
      | None => None
      | Some paramSchema =>
          let paramSchema :=
            if Json.isObject paramSchema then
              Json.setDescription
                (orElse (p_description param) (Json.description paramSchema))
                paramSchema
            else paramSchema in
          Some (objSet (p_name param) paramSchema properties,
                if p_required param then required ++ [p_name param] else required)
      end
  | _, _ => Some st
  end.

(** Lines 111-139: the request body, if any. *)
Definition addRequestBody (fuel : nat) (h : Heap)
    (st : list (string * JSONSchema) * list string)
    (requestBody : option RequestBodyObject)
  : option (list (string * JSONSchema) * list string * option string) :=
  let '(properties, required) := st in
  match requestBody with
  | None => Some (properties, required, None)
  | Some opRequestBody =>
      let jsonContent := rb_content opRequestBody ≫= objGet "application/json" in
      let firstContent := rb_content opRequestBody ≫= head in
      let required' :=
        if rb_required opRequestBody then required ++ ["requestBody"] else required in
      match jsonContent ≫= mt_schema, firstContent with
      | Some s, _ =>
          match mapOpenApiSchemaToJsonSchema fuel h s with
          | None => None
          | Some bodySchema =>
              let bodySchema :=
                if Json.isObject bodySchema then
                  Json.setDescription
                    (orElse (rb_description opRequestBody)
                       (orElse (Json.description bodySchema)
                          (Some "The JSON request body.")))
                    bodySchema
                else bodySchema in
              Some (objSet "requestBody" bodySchema properties, required',
                    Some "application/json")
          end
      | None, Some (contentType, _) =>
          let bodySchema :=
            JObject (Some (TName "string")) None None
              (Some (orDefault (rb_description opRequestBody)
                       ("Request body (content type: " +:+ contentType +:+ ")")))
              None [] in
          Some (objSet "requestBody" bodySchema properties, required',
                Some contentType)
      | None, None => Some (properties, required, None)
      end
  end.

(** Lines 83-149. *)
Definition generateInputSchemaAndDetails (fuel : nat) (h : Heap)
    (operation : OperationObject)
  : option (JSONSchema * list ParameterObject * option string) :=
  let allParameters := default [] (op_parameters operation) in
  match foldlM (addParameter fuel h) ([], []) allParameters with
  | None => None
  | Some st =>
      match addRequestBody fuel h st (op_requestBody operation) with
      | None => None
      | Some (properties, required, requestBodyContentType) =>
          let inputSchema :=
            JObject (Some (TName "object")) (Some properties) None None
              (match required with [] => None | _ => Some required end) [] in
          Some (inputSchema, allParameters, requestBodyContentType)
      end
  end.

(** Line 30: [operation.operationId || generateOperationId(method, path)]. *)
Definition declaredName (path : string) (m : HttpMethods)
    (operation : OperationObject) : string :=
  orDefault (op_operationId operation)
    (CodeGen.generateOperationId (methodName m) path).

(** Lines 54-56. An array is truthy, the empty one too. *)
Definition securityOf (globalSecurity : list SecurityRequirementObject)
    (operation : OperationObject) : list SecurityRequirementObject :=
  match op_security operation with
  | Null => globalSecurity
  | Val security => security
  | Undefined => globalSecurity
  end.

(** The loops' state: [tools] and [usedNames]. *)
Definition State : Type := list McpToolDefinition * gset string.

(** Lines 29-70: the body of the inner loop for an operation that exists. *)
Definition processOperation (fuel : nat) (h : Heap)
    (globalSecurity : list SecurityRequirementObject)
    (st : State) (entry : string * HttpMethods * OperationObject)
  : option State :=
  let '(tools, usedNames) := st in
  let '(path, m, operation) := entry in
  match declaredName path m operation with
  | EmptyString => Some st                               (* continue *)
  | baseName =>
      let baseName := sanitizeName baseName in
      match uniqueName usedNames baseName with
      | None => None
      | Some finalToolName =>
          let usedNames := {[finalToolName]} ∪ usedNames in
          let description :=
            orDefault (orElse (op_description operation) (op_summary operation))
              ("Executes " +:+ toUpperCase (methodName m) +:+ " " +:+ path) in
          match generateInputSchemaAndDetails fuel h operation with
          | None => None
          | Some (inputSchema, parameters, requestBodyContentType) =>
              let executionParameters :=
                (fun p => (p_name p, p_in p)) <$> parameters in
              let securityRequirements := securityOf globalSecurity operation in
              Some (tools ++ [{|
                      name := finalToolName;
                      description := description;
                      inputSchema := inputSchema;
                      method := methodName m;
                      pathTemplate := path;
                      parameters := parameters;
                      executionParameters := executionParameters;
                      requestBodyContentType := requestBodyContentType;
                      securityRequirements := securityRequirements;
                      operationId := baseName |}],
                    usedNames)
          end
      end
  end.

(** Lines 25-71: [for (const method of Object.values(HttpMethods))]. *)
Definition processPath (fuel : nat) (h : Heap)
    (globalSecurity : list SecurityRequirementObject)
    (st : State) (entry : string * option PathItemObject) : option State :=
  match entry.2 with
  | None => Some st                                      (* continue *)
  | Some pathItem =>
      foldlM (fun st m =>
                match pathItem m with
                | None => Some st                        (* continue *)
                | Some operation =>
                    processOperation fuel h globalSecurity st (entry.1, m, operation)
                end)
             st allMethods
  end.

(** Lines 15-75. *)
Definition extractToolsFromApi (fuel : nat) (h : Heap) (api : Document)
  : option (list McpToolDefinition) :=
  let globalSecurity := default [] (api_security api) in
  match api_paths api with
  | None => Some []
  | Some paths =>
      fst <$> foldlM (processPath fuel h globalSecurity) ([], ∅) paths
  end.

End ExtractTools.

(** ** [src/utils/security.ts] *)
Module Security.
Import JsString.

(** The second argument of [getEnvVarName]. *)
Inductive CredentialKind : Type :=
| API_KEY | BEARER_TOKEN | BASIC_USERNAME | BASIC_PASSWORD
| OAUTH_CLIENT_ID | OAUTH_CLIENT_SECRET | OAUTH_TOKEN | OAUTH_SCOPES
| OPENID_TOKEN.

Definition kindName (k : CredentialKind) : string :=
  match k with
  | API_KEY => "API_KEY"
  | BEARER_TOKEN => "BEARER_TOKEN"
  | BASIC_USERNAME => "BASIC_USERNAME"
  | BASIC_PASSWORD => "BASIC_PASSWORD"
  | OAUTH_CLIENT_ID => "OAUTH_CLIENT_ID"
  | OAUTH_CLIENT_SECRET => "OAUTH_CLIENT_SECRET"
  | OAUTH_TOKEN => "OAUTH_TOKEN"
  | OAUTH_SCOPES => "OAUTH_SCOPES"
  | OPENID_TOKEN => "OPENID_TOKEN"
  end.

Definition isAlphaNum (c : ascii) : bool :=
  isLower c || isUpper c || isDigit c.

(** [schemeName.replace(/[^a-zA-Z0-9]/g, '_').toUpperCase()] *)
Definition sanitizedName (schemeName : string) : string :=
  toUpperCase (JsString.map (fun c => if isAlphaNum c then c else "_"%char) schemeName).

(** Lines 13-28. *)
Definition getEnvVarName (schemeName : string) (type : CredentialKind) : string :=
  kindName type +:+ "_" +:+ sanitizedName schemeName.

(** [process.env] *)
Definition Env := gmap string string.

(** [!!process.env[name]]: set, and not to the empty string. *)
Definition isSet (env : Env) (name : string) : bool := truthy (env !! name).

Record OAuthFlow : Type := {
  tokenUrl : option string
}.

Record OAuthFlows : Type := {
  clientCredentials : option OAuthFlow;
  password : option OAuthFlow
}.

Record SecurityScheme : Type := {
  ss_type : string;
  ss_scheme : option string;     (* of an http scheme *)
  ss_flows : option OAuthFlows   (* of an oauth2 scheme *)
}.

(** [scheme.scheme?.toLowerCase() === s] *)
Definition httpSchemeIs (scheme : SecurityScheme) (s : string) : bool :=
  match ss_scheme scheme with
  | Some x => String.eqb (toLowerCase x) s
  | None => false
  end.

(** [scheme.flows?.clientCredentials || scheme.flows?.password] *)
Definition hasSupportedFlow (scheme : SecurityScheme) : bool :=
  match ss_flows scheme with
  | Some flows =>
      match clientCredentials flows, password flows with
      | None, None => false
      | _, _ => true
      end
  | None => false
  end.

(** The generated [executeApiTool], lines 215-260: the callback of
    [every]. The name of each variable is computed when the tool runs,
    from the scheme name of the requirement. *)
Definition schemeAvailable (env : Env) (allSecuritySchemes : gmap string SecurityScheme)
    (schemeName : string) : bool :=
  let var (k : CredentialKind) := kindName k +:+ "_" +:+ sanitizedName schemeName in
  match allSecuritySchemes !! schemeName with
  | None => false
  | Some scheme =>
      if String.eqb (ss_type scheme) "apiKey" then isSet env (var API_KEY)
      else if String.eqb (ss_type scheme) "http" then
        if httpSchemeIs scheme "bearer" then isSet env (var BEARER_TOKEN)
        else if httpSchemeIs scheme "basic" then
          isSet env (var BASIC_USERNAME) && isSet env (var BASIC_PASSWORD)
        else false
      else if String.eqb (ss_type scheme) "oauth2" then
        if isSet env (var OAUTH_TOKEN) then true
        else if isSet env (var OAUTH_CLIENT_ID) && isSet env (var OAUTH_CLIENT_SECRET)
        then hasSupportedFlow scheme
        else false
      else if String.eqb (ss_type scheme) "openIdConnect" then
        isSet env (var OPENID_TOKEN)
      else false
  end.

(** [Object.entries(req).every(([schemeName, scopesArray]) => ...)] *)
Definition requirementMet (env : Env) (allSecuritySchemes : gmap string SecurityScheme)
    (req : SecurityRequirementObject) : bool :=
  forallb (fun entry => schemeAvailable env allSecuritySchemes entry.1) req.

(** Line 213: [definition.securityRequirements?.find(req => ...)]. *)
Definition appliedSecurity (env : Env) (allSecuritySchemes : gmap string SecurityScheme)
    (securityRequirements : list SecurityRequirementObject)
  : option SecurityRequirementObject :=
  List.find (requirementMet env allSecuritySchemes) securityRequirements.

(** *** The generated [acquireOAuth2Token], lines 109-193 *)

Record TokenCacheEntry : Type := {
  token : string;
  expiresAt : Z              (* milliseconds, as [Date.now()] *)
}.

(** [response.data] of the token endpoint. *)
Record TokenResponse : Type := {
  access_token : option string;
  expires_in : option Z
}.

(** The request of lines 161-169: the URL, the pair sent as HTTP Basic
    credentials, and the scope of the form, if any. *)
Record TokenRequest : Type := {
  rq_url : string;
  rq_clientId : string;
  rq_clientSecret : string;
  rq_scope : option string
}.

(** What [await axios(...)] does: it throws, or gives a response. *)
Inductive Reply : Type :=
| Throws
| Response (data : option TokenResponse).

(** [global.__oauthTokenCache], and the requests sent so far. *)
Record World : Type := {
  tokenCache : option (gmap string TokenCacheEntry);
  sent : list TokenRequest
}.

(** The template interpolates [getEnvVarName('schemeName', ...)] when the
    code is generated (lines 112-114): the generated function reads these
    three names, whatever scheme it is called for. *)
Definition clientIdVar : string := getEnvVarName "schemeName" OAUTH_CLIENT_ID.
Definition clientSecretVar : string := getEnvVarName "schemeName" OAUTH_CLIENT_SECRET.
Definition scopesVar : string := getEnvVarName "schemeName" OAUTH_SCOPES.

(** [`${schemeName}_${clientId}`] *)
Definition cacheKey (schemeName clientId : string) : string :=
  schemeName +:+ "_" +:+ clientId.

(** Lines 137-147. *)
Definition tokenUrlOf (scheme : SecurityScheme) : option string :=
  match ss_flows scheme with
  | None => None
  | Some flows =>
      let cc := clientCredentials flows ≫= tokenUrl in
      let pw := password flows ≫= tokenUrl in
      if truthy cc then cc else if truthy pw then pw else None
  end.

(** [response.data.expires_in || 3600] *)
Definition expiresInOr3600 (expires_in : option Z) : Z :=
  match expires_in with
  | Some 0%Z => 3600
  | Some e => e
  | None => 3600
  end.

(** Lines 150-169: the request for a token. *)
Definition tokenRequest (env : Env) (url clientId clientSecret : string) : TokenRequest :=
  let scopes := env !! scopesVar in
  {| rq_url := url;
     rq_clientId := clientId;
     rq_clientSecret := clientSecret;
     rq_scope := if truthy scopes then scopes else None |}.

Definition acquireOAuth2Token (env : Env) (axios : TokenRequest -> Reply)
    (now : Z) (schemeName : string) (scheme : SecurityScheme) (w : World)
  : option string * World :=
  match env !! clientIdVar, env !! clientSecretVar with
  | Some (String _ _ as clientId), Some (String _ _ as clientSecret) =>
      let cache := default ∅ (tokenCache w) in
      let w := {| tokenCache := Some cache; sent := sent w |} in
      let key := cacheKey schemeName clientId in
      let fetch :=
        match tokenUrlOf scheme with
        | None => (None, w)
        | Some url =>
            let request := tokenRequest env url clientId clientSecret in
            let w := {| tokenCache := Some cache; sent := sent w ++ [request] |} in
            match axios request with
            | Response (Some {| access_token := Some (String _ _ as tok);
                                expires_in := expires_in |}) =>
                let entry := {| token := tok;
                                expiresAt := now + expiresInOr3600 expires_in * 1000 - 60000 |} in
                (Some tok, {| tokenCache := Some (<[key := entry]> cache);
                              sent := sent w |})
            | _ => (None, w)
            end
        end in
      match cache !! key with
      | Some cachedToken =>
          if (now <? expiresAt cachedToken)%Z then (Some (token cachedToken), w)
          else fetch
      | None => fetch
      end
  | _, _ => (None, w)
  end.

End Security.

(** ** The operations of a document, in the order the loops visit them *)
Module Operations.
Import ExtractTools.

(** A path, a method, and the operation declared there. *)
Definition Entry : Type := string * HttpMethods * OperationObject.

Definition operationsOfPath (entry : string * option PathItemObject) : list Entry :=
  match entry.2 with
  | None => []
  | Some pathItem =>
      omap (fun m => (fun operation => (entry.1, m, operation)) <$> pathItem m) allMethods
  end.

Definition operationsOf (api : Document) : list Entry :=
  match api_paths api with
  | None => []
  | Some paths => paths ≫= operationsOfPath
  end.

(** [made fuel h globalSecurity usedNames entry tool]: [tool] is what the
    loop body pushes for [entry] when it is entered with [usedNames]. *)
Definition made (fuel : nat) (h : Heap)
    (globalSecurity : list SecurityRequirementObject) (usedNames : gset string)
    (entry : Entry) (tool : McpToolDefinition) : Prop :=
  operationId tool = sanitizeName (declaredName entry.1.1 entry.1.2 entry.2) /\
  uniqueName usedNames (operationId tool) = Some (name tool) /\
  generateInputSchemaAndDetails fuel h entry.2 =
    Some (inputSchema tool, parameters tool, requestBodyContentType tool) /\
  executionParameters tool = (fun p => (p_name p, p_in p)) <$> parameters tool /\
  securityRequirements tool = securityOf globalSecurity entry.2 /\
  method tool = methodName entry.1.2 /\
  pathTemplate tool = entry.1.1.

(** A run of the loops from [usedNames] over some entries, and the tools it
    pushes. *)
Inductive Run (fuel : nat) (h : Heap) (globalSecurity : list SecurityRequirementObject)
  : gset string -> list Entry -> list McpToolDefinition -> Prop :=
| Run_nil usedNames : Run fuel h globalSecurity usedNames [] []
| Run_cons usedNames entry entries tool tools :
    made fuel h globalSecurity usedNames entry tool ->
    Run fuel h globalSecurity ({[name tool]} ∪ usedNames) entries tools ->
    Run fuel h globalSecurity usedNames (entry :: entries) (tool :: tools).

(** The base name of an entry: line 30, then line 34. *)
Definition baseNameOf (entry : Entry) : string :=
  sanitizeName (declaredName entry.1.1 entry.1.2 entry.2).

(** What line 34 does to one character. *)
Definition sanitizeChar (c : ascii) : ascii :=
  let d := if JsString.eqb_char c "." then "_"%char else c in
  let e := if isNameChar d then d else "_"%char in
  JsString.toLowerChar e.

(** The sanitized name in the specification's words: the name lower-cased,
    with every character outside [[a-z0-9_-]] (the dot among them) replaced
    by an underscore. *)
Definition lowerCasedAndReplaced (s : string) : string :=
  JsString.map
    (fun c =>
       let l := JsString.toLowerChar c in
       if JsString.isLower l || JsString.isDigit l
          || JsString.eqb_char l "_" || JsString.eqb_char l "-"
       then l else "_"%char) s.


(** The names of some tools, as a set. *)
Definition namesOf (tools : list McpToolDefinition) : gset string :=
  list_to_set (name <$> tools).

End Operations.

(** ** The calls of the schema translation *)
Module SchemaGraph.
Import SchemaTranslator.

(** [traverses h l l']: translating the object at [l], the translator calls
    itself on the object at [l'], one of the properties of an object-typed
    node or the items of an array-typed node. *)
Definition traverses (h : Heap) (l l' : loc) : Prop :=
  s_ref (h l) = None /\
  ((mappedType (h l) = Some (TName "object") /\
    exists props key, s_properties (h l) = Some props /\ (key, VObject l') ∈ props)
   \/
   (mappedType (h l) = Some (TName "array") /\ s_items (h l) = Some (VObject l'))).

(** The translation of [l] comes to an object that reaches itself. *)
Definition entersCycle (h : Heap) (l : loc) : Prop :=
  exists c, rtc (traverses h) l c /\ tc (traverses h) c c.

End SchemaGraph.

(** ** A sample document *)
Module Petstore.
Import Security.

Definition schemaOf (type : option SchemaType) (nullable : bool)
    (properties : option (list (string * SchemaValue)))
    (items : option SchemaValue) : SchemaObject :=
  {| s_ref := None; s_type := type; s_nullable := nullable;
     s_properties := properties; s_items := items;
     s_description := None; s_required := None; s_rest := [] |}.

(** The schema objects of the document, by location:
    0 a string; 1 a nullable integer; 2 a pet; 3 a list node that holds
    itself under [next]; 4 and 5 two objects that hold each other; 6 an
    unresolved reference marked nullable; 7 a nullable string; 8 an array
    of pets. *)
Definition heap : Heap := fun l =>
  match l with
  | 1 => schemaOf (Some (TName "integer")) true None None
  | 2 => schemaOf (Some (TName "object")) false
           (Some [("id", VObject 1); ("name", VObject 0)]) None
  | 3 => schemaOf (Some (TName "object")) false
           (Some [("value", VObject 0); ("next", VObject 3)]) None
  | 4 => schemaOf (Some (TName "object")) false (Some [("b", VObject 5)]) None
  | 5 => schemaOf (Some (TName "object")) false (Some [("a", VObject 4)]) None
  | 6 => {| s_ref := Some "#/components/schemas/Missing"; s_type := None;
            s_nullable := true; s_properties := None; s_items := None;
            s_description := None; s_required := None; s_rest := [] |}
  | 7 => schemaOf (Some (TName "string")) true None None
  | 8 => schemaOf (Some (TName "array")) false None (Some (VObject 2))
  | _ => schemaOf (Some (TName "string")) false None None
  end.

Definition param (name location : string) (required : bool) (schema : option loc)
  : ParameterObject :=
  {| p_name := name; p_in := location; p_description := None;
     p_required := required; p_schema := schema |}.

Definition operation (operationId : option string)
    (parameters : list ParameterObject) (body : option RequestBodyObject)
    (security : JsOpt (list SecurityRequirementObject)) : OperationObject :=
  {| op_operationId := operationId; op_description := None; op_summary := None;
     op_parameters := Some parameters; op_requestBody := body;
     op_security := security |}.

Definition jsonBody (schema : loc) : RequestBodyObject :=
  {| rb_description := None;
     rb_content := Some [("application/json", {| mt_schema := Some schema |})];
     rb_required := true |}.

Definition listPets : OperationObject :=
  operation (Some "listPets") [param "limit" "query" false (Some 1)] None Undefined.

Definition addPet : OperationObject :=
  operation (Some "Pets.add") [] (Some (jsonBody 2)) (Val [[("api_key", [])]]).

(** A second operation that declares the identifier [listPets]. *)
Definition listPetsAgain : OperationObject :=
  operation (Some "listPets") [param "petId" "path" true (Some 0)] None (Val []).

(** A parameter described by [content], without [schema]. *)
Definition findPets : OperationObject :=
  operation None [param "filter" "query" false None] None Undefined.

Definition globalSecurity : list SecurityRequirementObject :=
  [[("petstore_auth", ["read:pets"])]].

Definition api : Document :=
  {| api_paths := Some
       [("/pets", Some (fun m => match m with
                                 | GET => Some listPets
                                 | POST => Some addPet
                                 | _ => None
                                 end));
        ("/pets/{petId}", Some (fun m => match m with
                                         | GET => Some listPetsAgain
                                         | _ => None
                                         end))];
     api_security := Some globalSecurity |}.

(** Two operations only, both declaring [listPets]. *)
Definition twoSameNames : Document :=
  {| api_paths := Some
       [("/pets", Some (fun m => match m with
                                 | GET => Some listPets
                                 | _ => None
                                 end));
        ("/pets/{petId}", Some (fun m => match m with
                                         | GET => Some listPetsAgain
                                         | _ => None
                                         end))];
     api_security := None |}.

Definition findOnly : Document :=
  {| api_paths := Some
       [("/pets/find", Some (fun m => match m with
                                      | GET => Some findPets
                                      | _ => None
                                      end))];
     api_security := None |}.

(** An operation whose body is the list node of location 3. *)
Definition pushNode : Document :=
  {| api_paths := Some
       [("/nodes", Some (fun m => match m with
                                  | POST => Some (operation (Some "pushNode") []
                                                    (Some (jsonBody 3)) Undefined)
                                  | _ => None
                                  end))];
     api_security := None |}.

(** What [extractToolsFromApi] returns for these documents. *)
Definition tools : list McpToolDefinition :=
  Eval vm_compute in default [] (ExtractTools.extractToolsFromApi 3 heap api).

Definition twoSameNamesTools : list McpToolDefinition :=
  Eval vm_compute in default [] (ExtractTools.extractToolsFromApi 3 heap twoSameNames).

Definition findOnlyTools : list McpToolDefinition :=
  Eval vm_compute in default [] (ExtractTools.extractToolsFromApi 3 heap findOnly).

(** The security schemes of the document and an environment in which the
    client credentials of [petstore_auth] are set as the README says. *)
Definition oauthScheme : SecurityScheme :=
  {| ss_type := "oauth2"; ss_scheme := None;
     ss_flows := Some {| clientCredentials :=
                           Some {| tokenUrl := Some "https://auth.example/token" |};
                         password := None |} |}.

Definition apiKeyScheme : SecurityScheme :=
  {| ss_type := "apiKey"; ss_scheme := None; ss_flows := None |}.

Definition securitySchemes : gmap string SecurityScheme :=
  <["petstore_auth" := oauthScheme]> (<["api_key" := apiKeyScheme]> ∅).

Definition documentedEnv : Env :=
  <["OAUTH_CLIENT_ID_PETSTORE_AUTH" := "my-client"]>
    (<["OAUTH_CLIENT_SECRET_PETSTORE_AUTH" := "my-secret"]> ∅).

(** The environment the generated [acquireOAuth2Token] reads. *)
Definition placeholderEnv : Env :=
  <["OAUTH_CLIENT_ID_SCHEMENAME" := "my-client"]>
    (<["OAUTH_CLIENT_SECRET_SCHEMENAME" := "my-secret"]> ∅).

(** A token endpoint that answers every request alike. *)
Definition endpoint (expires_in : option Z) : TokenRequest -> Reply :=
  fun _ => Response (Some {| access_token := Some "T1"; expires_in := expires_in |}).

Definition freshWorld : World := {| tokenCache := None; sent := [] |}.

End Petstore.

(** ** Further views of the extraction *)
Module Charset.
Import JsString.

(** Every character of [s] satisfies [p]. *)
Fixpoint allChars (p : ascii -> bool) (s : string) : bool :=
  match s with
  | EmptyString => true
  | String c r => p c && allChars p r
  end.

(** The characters line 33 of [extract-tools.ts] allows in a tool name:
    [a-z], [0-9], the underscore and the hyphen. *)
Definition isToolNameChar (c : ascii) : bool :=
  isLower c || isDigit c || eqb_char c "_" || eqb_char c "-".

(** The characters of an environment variable name: [A-Z], [0-9] and the
    underscore. *)
Definition isEnvNameChar (c : ascii) : bool :=
  isUpper c || isDigit c || eqb_char c "_".

End Charset.

(** The [required] keyword of a schema. *)
Definition requiredOf (j : JSONSchema) : option (list string) :=
  match j with
  | JObject _ _ _ _ r _ => r
  | _ => None
  end.

(** ** More sample schemas *)
Module Samples.

(** A nullable object with an integer property and a nullable one; the
    other objects are plain. *)
Definition nullableHeap : Heap := fun l =>
  match l with
  | 0 => Petstore.schemaOf (Some (TName "object")) true
           (Some [("count", VObject 1); ("note", VObject 2)]) None
  | 1 => Petstore.schemaOf (Some (TName "integer")) false None None
  | 2 => Petstore.schemaOf (Some (TName "string")) true None None
  | _ => Petstore.schemaOf (Some (TName "string")) false None None
  end.

(** An object with a string and an array of strings, and no cycle. *)
Definition nestedHeap : Heap := fun l =>
  match l with
  | 1 => Petstore.schemaOf (Some (TName "object")) false
           (Some [("a", VObject 0); ("b", VObject 2)]) None
  | 2 => Petstore.schemaOf (Some (TName "array")) false None (Some (VObject 0))
  | _ => Petstore.schemaOf (Some (TName "string")) false None None
  end.

Definition nestedRank (l : loc) : nat :=
  match l with
  | 1 => 2
  | 2 => 1
  | _ => 0
  end.

(** An operation with a required parameter named [__proto__]. *)
Definition protoParameter : Document :=
  {| api_paths := Some
       [("/objects",
         Some (fun m => match m with
                        | GET => Some (Petstore.operation None
                                         [Petstore.param "__proto__" "query" true (Some 0)]
                                         None Undefined)
                        | _ => None
                        end))];
     api_security := None |}.

Definition protoParameterTools : list McpToolDefinition :=
  Eval vm_compute in
    default [] (ExtractTools.extractToolsFromApi 3 Petstore.heap protoParameter).

End Samples.

(** ** [src/utils/url.ts] *)
Module Url.
Import JsString.

(** [url.replace(/\/$/, '')]: one slash at the end is removed. *)
Fixpoint normalizeUrl (url : string) : string :=
  match url with
  | EmptyString => EmptyString
  | String c EmptyString => if eqb_char c "/" then EmptyString else url
  | String c r => String c (normalizeUrl r)
  end.

Definition joinUrl (baseUrl path : string) : string :=
  match baseUrl, path with
  | EmptyString, _ => path
  | _, EmptyString => baseUrl
  | _, _ =>
      let normalizedBase := normalizeUrl baseUrl in
      let normalizedPath := if startsWithChar "/" path then path else "/" +:+ path in
      normalizedBase +:+ normalizedPath
  end.

(** A server object of the document: its [url]. *)
Record ServerObject : Type := {
  server_url : string
}.

(** [determineBaseUrl(api, cmdLineBaseUrl)]; of [api] it reads [api.servers]
    only. *)
Definition determineBaseUrl (servers : option (list ServerObject))
    (cmdLineBaseUrl : option string) : option string :=
  match cmdLineBaseUrl with
  | Some (String _ _ as url) => Some (normalizeUrl url)
  | _ =>
      match servers with
      | Some [server] =>
          match server_url server with
          | EmptyString => None
          | url => Some (normalizeUrl url)
          end
      | Some (server :: _ :: _) => Some (normalizeUrl (server_url server))
      | _ => None
      end
  end.

(** The loop of [extractPathParams], [while ((match = paramRegex.exec(...))
    !== null)] with [/{([^}]+)}/g], as one pass over the template: outside
    a placeholder an opening brace starts one; inside, a closing brace ends
    it, and the name read so far is pushed unless it is empty ([{}] is no
    match, and the search goes on after its opening brace); an opening
    brace with no closing brace after it matches nothing. [name] is [None]
    outside a placeholder. *)
Fixpoint scanPathParams (name : option string) (urlTemplate : string) : list string :=
  match urlTemplate with
  | EmptyString => []
  | String c r =>
      match name with
      | None =>
          if eqb_char c "{" then scanPathParams (Some EmptyString) r
          else scanPathParams None r
      | Some n =>
          if eqb_char c "}" then
            match n with
            | EmptyString => scanPathParams None r
            | _ => n :: scanPathParams None r
            end
          else scanPathParams (Some (n +:+ String c EmptyString)) r
      end
  end.

Definition extractPathParams (urlTemplate : string) : list string :=
  scanPathParams None urlTemplate.

End Url.

(** ** [src/utils/helpers.ts] *)
Module Helpers.
Import JsString.

(** [.replace(/\\/g, '\\\\')] *)
Fixpoint escapeBackslashes (s : string) : string :=
  match s with
  | EmptyString => EmptyString
  | String c r =>
      if eqb_char c "\" then String "\" (String "\" (escapeBackslashes r))
      else String c (escapeBackslashes r)
  end.

(** [.replace(/`/g, '\\`')] *)
Fixpoint escapeBackticks (s : string) : string :=
  match s with
  | EmptyString => EmptyString
  | String c r =>
      if eqb_char c "`" then String "\" (String "`" (escapeBackticks r))
      else String c (escapeBackticks r)
  end.

(** [(str || '')] is the argument here. *)
Definition sanitizeForTemplate (str : string) : string :=
  escapeBackticks (escapeBackslashes str).

(** The class [[a-zA-Z0-9_$]]. *)
Definition isIdentifierChar (c : ascii) : bool :=
  isLower c || isUpper c || isDigit c || eqb_char c "_" || eqb_char c "$".

(** The class [[a-zA-Z_$]]. *)
Definition isIdentifierStart (c : ascii) : bool :=
  isLower c || isUpper c || eqb_char c "_" || eqb_char c "$".

Definition toValidVariableName (str : string) : string :=
  let sanitized := JsString.map (fun c => if isIdentifierChar c then c else "_"%char) str in
  match sanitized with
  | String c _ => if isDigit c then "_" +:+ sanitized else sanitized
  | EmptyString => sanitized
  end.

(** [/^[a-zA-Z_$][a-zA-Z0-9_$]*$/.test(str)] *)
Definition isValidIdentifier (str : string) : bool :=
  match str with
  | String c r => isIdentifierStart c && Charset.allChars isIdentifierChar r
  | EmptyString => false
  end.

(** How the text between the backticks of a template literal is read, from
    left to right: a backslash takes the character after it with it; a
    backtick that is not taken ends the literal; a dollar sign that is not
    taken, before an opening brace, starts a substitution. *)
Fixpoint endsLiteral (s : string) : bool :=
  match s with
  | EmptyString => false
  | String c r =>
      if eqb_char c "\" then
        match r with
        | String _ r' => endsLiteral r'
        | EmptyString => false
        end
      else if eqb_char c "`" then true
      else endsLiteral r
  end.

Fixpoint startsSubstitution (s : string) : bool :=
  match s with
  | EmptyString => false
  | String c r =>
      if eqb_char c "\" then
        match r with
        | String _ r' => startsSubstitution r'
        | EmptyString => false
        end
      else if eqb_char c "$" && startsWithChar "{" r then true
      else startsSubstitution r
  end.

(** [s] has the two characters [${] somewhere. *)
Fixpoint hasDollarBrace (s : string) : bool :=
  match s with
  | EmptyString => false
  | String c r => (eqb_char c "$" && startsWithChar "{" r) || hasDollarBrace r
  end.

End Helpers.

(** ** [src/api.ts]: the programmatic interface *)
Module Api.
Import ExtractTools.

(** [GetToolsOptions]; [dereference] chooses how the document is parsed and
    is not read afterwards. *)
Record GetToolsOptions : Type := {
  opt_baseUrl : option string;
  opt_excludeOperationIds : option (list string);
  opt_filterFn : option (McpToolDefinition -> bool)
}.

(** Lines 148-159 of [getToolsFromOpenApi]. *)
Definition filterTools (options : GetToolsOptions) (allTools : list McpToolDefinition)
  : list McpToolDefinition :=
  let filteredTools := allTools in
  let filteredTools :=
    match opt_excludeOperationIds options with
    | Some ((_ :: _) as excludeOperationIds) =>
        let excludeSet : gset string := list_to_set excludeOperationIds in
        List.filter (fun tool => negb (bool_decide (operationId tool ∈ excludeSet)))
                    filteredTools
    | _ => filteredTools
    end in
  match opt_filterFn options with
  | Some filterFn => List.filter filterFn filteredTools
  | None => filteredTools
  end.

(** [getToolsFromOpenApi], from the parsed document on (lines 142-165): the
    tools, each with the base URL. [servers] is [api.servers]. An
    extraction that throws makes the function throw. *)
Definition getToolsFromOpenApi (fuel : nat) (h : Heap) (api : Document)
    (servers : option (list Url.ServerObject)) (options : GetToolsOptions)
  : option (list (McpToolDefinition * string)) :=
  match extractToolsFromApi fuel h api with
  | None => None
  | Some allTools =>
      let baseUrl := Url.determineBaseUrl servers (opt_baseUrl options) in
      Some ((fun tool => (tool, default "" baseUrl)) <$> filterTools options allTools)
  end.

End Api.

(** ** Paths and scheme names, for the statements below *)
Module Shapes.
Import JsString.

(** The path with the given segments: [/a/b/c]. *)
Fixpoint pathOf (segments : list string) : string :=
  match segments with
  | [] => EmptyString
  | segment :: rest => "/" +:+ segment +:+ pathOf rest
  end.

(** A segment of a path: not empty, and with no slash. *)
Definition isSegment (s : string) : bool :=
  CodeGen.nonEmpty s && Charset.allChars (fun c => negb (eqb_char c "/")) s.

(** A segment that is a parameter placeholder, as line 132 of
    [code-gen.ts] tests it. *)
Definition isPlaceholder (s : string) : bool :=
  startsWithChar "{" s && endsWithChar "}" s.

(** Two scheme names that differ in the case of letters and in which
    characters other than letters and digits they have, and in nothing
    else. *)
Fixpoint sameUpToCaseAndPunctuation (a b : string) : Prop :=
  match a, b with
  | EmptyString, EmptyString => True
  | String x a', String y b' =>
      ((Security.isAlphaNum x = false /\ Security.isAlphaNum y = false) \/
       (Security.isAlphaNum x = true /\ Security.isAlphaNum y = true /\
        toUpperChar x = toUpperChar y)) /\
      sameUpToCaseAndPunctuation a' b'
  | _, _ => False
  end.

End Shapes.

(** ** Sample options of the programmatic interface *)
Module ApiSamples.

Definition servers : option (list Url.ServerObject) :=
  Some [{| Url.server_url := "https://petstore.example/v1/" |}].

(** The sanitized identifier of the two [listPets] operations. *)
Definition excludeListPets : Api.GetToolsOptions :=
  {| Api.opt_baseUrl := None;
     Api.opt_excludeOperationIds := Some ["listpets"];
     Api.opt_filterFn := None |}.

(** The identifiers as the document declares them. *)
Definition excludeDeclared : Api.GetToolsOptions :=
  {| Api.opt_baseUrl := None;
     Api.opt_excludeOperationIds := Some ["listPets"; "Pets.add"];
     Api.opt_filterFn := None |}.

Definition keptTools : list (McpToolDefinition * string) :=
  Eval vm_compute in
    default [] (Api.getToolsFromOpenApi 3 Petstore.heap Petstore.api servers excludeListPets).

Definition allKept : list (McpToolDefinition * string) :=
  Eval vm_compute in
    default [] (Api.getToolsFromOpenApi 3 Petstore.heap Petstore.api servers excludeDeclared).

End ApiSamples.

(** ** Sample environments of the resolver *)
Module ResolverSamples.

(** The API key, or else the OAuth2 token. *)
Definition keyOrOAuth : list SecurityRequirementObject :=
  [[("api_key", [])]; [("petstore_auth", [])]].

Definition tokenSet : Security.Env :=
  <["OAUTH_TOKEN_PETSTORE_AUTH" := "T0"]> ∅.

Definition bothSet : Security.Env :=
  <["API_KEY_API_KEY" := "K0"]> tokenSet.

End ResolverSamples.

(** * Theorems *)

(** ** Characters and strings *)
Section StringFacts.
Import JsString.

(** A fact about one character is checked on all 256 of them. *)
Ltac by_cases_on c :=
  destruct c as [[] [] [] [] [] [] [] []]; vm_compute; intuition congruence.

Lemma map_map (f g : ascii -> ascii) (s : string) :
  JsString.map f (JsString.map g s) = JsString.map (fun c => f (g c)) s.
Proof. induction s as [|c s IH]; simpl; [done|by rewrite IH]. Qed.

Lemma map_ext (f g : ascii -> ascii) (s : string) :
  (forall c, f c = g c) -> JsString.map f s = JsString.map g s.
Proof. intros E. induction s as [|c s IH]; simpl; [done|by rewrite E, IH]. Qed.

Lemma map_fixed (f : ascii -> ascii) (s : string) (c : ascii) :
  JsString.map f s = s -> JsString.In c s -> f c = c.
Proof.
  induction s as [|d s IH]; simpl; [done|].
  intros E [->|Hin]; [congruence|].
  apply IH; [congruence|done].
Qed.

Lemma app_nonempty_l (a b : string) : a <> "" -> a +:+ b <> "".
Proof. by destruct a. Qed.

Lemma app_empty_r (a : string) : a +:+ "" = a.
Proof.
  induction a as [|c a IH]; [done|].
  change (String c (a +:+ "") = String c a). by f_equal.
Qed.

Lemma sanitizeChar_changes (c : ascii) :
  isUpper c = true \/ c = "."%char -> Operations.sanitizeChar c <> c.
Proof. by_cases_on c. Qed.

Lemma sanitizeChar_spec (c : ascii) :
  Operations.sanitizeChar c =
    let l := toLowerChar c in
    if isLower l || isDigit l || eqb_char l "_" || eqb_char l "-" then l
    else "_"%char.
Proof. by_cases_on c. Qed.

End StringFacts.

(** ** Synthesized identifiers are never empty *)
Section GeneratedNames.
Import JsString CodeGen ExtractTools.

Lemma appendParts_nonempty (parts : list string) (name : string) :
  name <> "" -> appendParts parts name <> "".
Proof.
  revert name. induction parts as [|part rest IH]; intros name Hne; simpl; [done|].
  apply IH. destruct (_ && _); [destruct rest|]; auto using app_nonempty_l.
Qed.

Lemma generateOperationId_nonempty (m : HttpMethods) (path : string) :
  generateOperationId (methodName m) path <> "".
Proof.
  unfold generateOperationId.
  set (parts := List.filter _ _).
  assert (Hm : toLowerCase (methodName m) <> "") by (by destruct m).
  pose proof (appendParts_nonempty parts _ Hm) as Hn.
  destruct (String.eqb _ _).
  - destruct (appendParts parts _); [done|]. by simpl.
  - destruct (appendParts parts _); [done|]. by simpl.
Qed.

Lemma orDefault_nonempty (a : option string) (b : string) :
  b <> "" -> orDefault a b <> "".
Proof. by destruct a as [[|??]|]. Qed.

Lemma declaredName_nonempty path m operation :
  declaredName path m operation <> "".
Proof. apply orDefault_nonempty, generateOperationId_nonempty. Qed.

(** An identifier the operation declares is the one that is used. *)
Lemma declaredName_declared path m operation (id : string) :
  op_operationId operation = Some id -> id <> "" ->
  declaredName path m operation = id.
Proof. unfold declaredName. intros -> Hne. by destruct id. Qed.

End GeneratedNames.

(** ** The naming loop *)
Section NamingLoop.
Import ExtractTools.

Lemma suffixed_inj baseName : Inj (=) (=) (suffixed baseName).
Proof.
  intros i j E. unfold suffixed in E.
  apply (inj (String.app baseName)) in E.
  apply (inj (String.app "_")) in E.
  by apply (inj pretty) in E.
Qed.

Lemma suffixed_ne_base baseName k : suffixed baseName k <> baseName.
Proof.
  unfold suffixed. intros E.
  assert (E' : baseName +:+ ("_" +:+ pretty k) = baseName +:+ "")
    by (by rewrite app_empty_r).
  by apply (inj (String.app baseName)) in E'.
Qed.

(** What the loop returns is not a used name, and every name tried before
    it was. *)
Lemma uniqueNameLoop_spec fuel usedNames baseName final counter finalToolName :
  uniqueNameLoop fuel usedNames baseName final counter = Some finalToolName ->
  (finalToolName ∉ usedNames) /\
  ((finalToolName = final) \/
   (final ∈ usedNames /\
    exists k, counter <= k /\ finalToolName = suffixed baseName k /\
              forall j, counter <= j < k -> suffixed baseName j ∈ usedNames)).
Proof.
  revert final counter.
  induction fuel as [|fuel IH]; intros final counter; simpl; case_bool_decide as Hin;
    intros Hloop; try discriminate Hloop;
    try (injection Hloop as <-; by auto).
  apply IH in Hloop as [Hfresh [->|(Hused & k & Hk & -> & Hbelow)]].
  - split; [done|]. right. split; [done|]. exists counter.
    split; [lia|]. split; [done|]. intros j Hj. lia.
  - split; [done|]. right. split; [done|]. exists k.
    split; [lia|]. split; [done|]. intros j Hj.
    destruct (decide (j = counter)) as [->|]; [done|]. apply Hbelow. lia.
Qed.

(** When the loop gives up, every name it tried was used. *)
Lemma uniqueNameLoop_gives_up fuel usedNames baseName final counter :
  uniqueNameLoop fuel usedNames baseName final counter = None ->
  final ∈ usedNames /\
  forall j, counter <= j < counter + fuel -> suffixed baseName j ∈ usedNames.
Proof.
  revert final counter.
  induction fuel as [|fuel IH]; intros final counter; simpl; case_bool_decide as Hin;
    intros Hloop; try discriminate Hloop.
  - split; [done|]. intros j Hj. lia.
  - apply IH in Hloop as [Hfirst Hrest]. split; [done|].
    intros j Hj. destruct (decide (j = counter)) as [->|]; [done|].
    apply Hrest. lia.
Qed.

(** The loop ends: there are more names to try than used names. *)
Lemma uniqueName_returns usedNames baseName :
  is_Some (uniqueName usedNames baseName).
Proof.
  destruct (uniqueName usedNames baseName) as [n|] eqn:E; [by eexists|].
  exfalso. apply uniqueNameLoop_gives_up in E as [Hbase Hrest].
  set (tried := baseName :: (suffixed baseName <$> seq 1 (size usedNames))).
  assert (Hnodup : NoDup tried).
  { apply NoDup_cons. split.
    - rewrite list_elem_of_fmap. intros (k & E & _). symmetry in E. by apply suffixed_ne_base in E.
    - pose proof (suffixed_inj baseName). apply (NoDup_fmap_2 _), NoDup_seq. }
  assert (Hsub : list_to_set (C := gset string) tried ⊆ usedNames).
  { intros x. rewrite elem_of_list_to_set. unfold tried.
    rewrite elem_of_cons, list_elem_of_fmap.
    intros [->|(k & -> & Hk)]; [done|].
    apply elem_of_seq in Hk. apply Hrest. lia. }
  apply subseteq_size in Hsub.
  rewrite size_list_to_set in Hsub by done.
  unfold tried in Hsub. simpl in Hsub. rewrite length_fmap, length_seq in Hsub. lia.
Qed.

Lemma uniqueName_spec usedNames baseName finalToolName :
  uniqueName usedNames baseName = Some finalToolName ->
  (finalToolName ∉ usedNames) /\
  ((finalToolName = baseName /\ (baseName ∉ usedNames)) \/
   (baseName ∈ usedNames /\
    exists k, 1 <= k /\ finalToolName = suffixed baseName k /\
              forall j, 1 <= j < k -> suffixed baseName j ∈ usedNames)).
Proof.
  intros E. apply uniqueNameLoop_spec in E as [Hfresh [->|H]]; auto.
Qed.

(** A base name that is free is kept. *)
Lemma uniqueName_free usedNames baseName :
  baseName ∉ usedNames -> uniqueName usedNames baseName = Some baseName.
Proof.
  intros Hfree. unfold uniqueName.
  destruct (size usedNames); simpl; by rewrite bool_decide_eq_false_2.
Qed.

(** A base name that is used gets the suffix [_1] when that is free. *)
Lemma uniqueName_first_collision usedNames baseName :
  baseName ∈ usedNames -> suffixed baseName 1 ∉ usedNames ->
  uniqueName usedNames baseName = Some (suffixed baseName 1).
Proof.
  intros Hused Hfree. unfold uniqueName.
  destruct (size usedNames) as [|n] eqn:Hsize.
  - apply size_empty_inv in Hsize. set_solver.
  - simpl. rewrite bool_decide_eq_true_2 by done.
    fold (suffixed baseName 1).
    destruct n; simpl; by rewrite bool_decide_eq_false_2.
Qed.

End NamingLoop.

(** ** The loops of [extractToolsFromApi] *)
Section Loops.
Import ExtractTools Operations.

Lemma foldlM_app {S A : Type} (step : S -> A -> option S) (st : S) (l1 l2 : list A) :
  foldlM step st (l1 ++ l2) = foldlM step st l1 ≫= fun st' => foldlM step st' l2.
Proof.
  revert st. induction l1 as [|x l1 IH]; intros st; simpl; [done|].
  destruct (step st x); simpl; [apply IH|done].
Qed.

(** A loop that skips what [f] rejects is the loop over what [f] keeps. *)
Lemma foldlM_omap {S A B C : Type} (f : A -> option B) (k : A -> B -> C)
    (step : S -> C -> option S) (st : S) (l : list A) :
  foldlM (fun st x => match f x with
                      | None => Some st
                      | Some y => step st (k x y)
                      end) st l
  = foldlM step st (omap (fun x => k x <$> f x) l).
Proof.
  revert st. induction l as [|x l IH]; intros st; simpl; [done|].
  destruct (f x) as [y|]; simpl; [|apply IH].
  destruct (step st (k x y)); [apply IH|done].
Qed.

Lemma processPath_flat fuel h globalSecurity st entry :
  processPath fuel h globalSecurity st entry
  = foldlM (processOperation fuel h globalSecurity) st (operationsOfPath entry).
Proof.
  unfold processPath, operationsOfPath.
  destruct entry as [path [pathItem|]]; cbn [fst snd]; [|done].
  apply (foldlM_omap pathItem (fun m operation => (path, m, operation))
           (processOperation fuel h globalSecurity)).
Qed.

Lemma foldlM_bind {S A B : Type} (f : A -> list B) (step : S -> B -> option S)
    (st : S) (l : list A) :
  foldlM (fun st x => foldlM step st (f x)) st l = foldlM step st (l ≫= f).
Proof.
  revert st. induction l as [|x l IH]; intros st; simpl; [done|].
  rewrite foldlM_app. destruct (foldlM step st (f x)); simpl; [apply IH|done].
Qed.

Lemma foldlM_ext {S A : Type} (f g : S -> A -> option S) (st : S) (l : list A) :
  (forall st x, f st x = g st x) -> foldlM f st l = foldlM g st l.
Proof.
  intros E. revert st. induction l as [|x l IH]; intros st; simpl; [done|].
  rewrite E. destruct (g st x); [apply IH|done].
Qed.

(** The two nested loops are one loop over the operations of the document. *)
Lemma extractToolsFromApi_flat fuel h api :
  extractToolsFromApi fuel h api
  = fst <$> foldlM (processOperation fuel h (default [] (api_security api)))
              ([], ∅) (operationsOf api).
Proof.
  unfold extractToolsFromApi, operationsOf.
  destruct (api_paths api) as [paths|]; [|done].
  rewrite <- foldlM_bind. f_equal. apply foldlM_ext. intros. apply processPath_flat.
Qed.

(** One pass of the loop body pushes one tool and registers its name. *)
Lemma processOperation_made fuel h globalSecurity tools usedNames entry st' :
  processOperation fuel h globalSecurity (tools, usedNames) entry = Some st' ->
  exists tool, st' = (tools ++ [tool], {[name tool]} ∪ usedNames) /\
               made fuel h globalSecurity usedNames entry tool.
Proof.
  destruct entry as [[path m] operation]. unfold processOperation.
  pose proof (declaredName_nonempty path m operation) as Hne.
  destruct (declaredName path m operation) as [|c r] eqn:Hname; [done|].
  destruct (uniqueName _ _) as [finalToolName|] eqn:Huniq; [|done].
  destruct (generateInputSchemaAndDetails _ _ _) as [[[inputSchema parameters] ct]|] eqn:Hgen;
    [|done].
  intros [= <-].
  match goal with |- context [tools ++ [?t]] => exists t end.
  split; [reflexivity|].
  unfold made; simpl. rewrite Hname. repeat split; done.
Qed.

Lemma foldlM_Run fuel h globalSecurity entries tools0 usedNames0 tools usedNames :
  foldlM (processOperation fuel h globalSecurity) (tools0, usedNames0) entries
    = Some (tools, usedNames) ->
  exists new, tools = tools0 ++ new /\
              Run fuel h globalSecurity usedNames0 entries new /\
              usedNames = namesOf new ∪ usedNames0.
Proof.
  revert tools0 usedNames0.
  induction entries as [|entry entries IH]; intros tools0 usedNames0; cbn [foldlM].
  - intros E. injection E as <- <-. exists []. rewrite app_nil_r. split; [done|].
    split; [constructor|]. unfold namesOf. set_solver.
  - destruct (processOperation _ _ _ _ _) as [st'|] eqn:Hstep; [|done].
    apply processOperation_made in Hstep as (tool & -> & Hmade).
    intros Hrest. apply IH in Hrest as (new & -> & Hrun & ->).
    exists (tool :: new). rewrite <- app_assoc. split; [done|].
    split; [by constructor|]. unfold namesOf. simpl. set_solver.
Qed.

(** Every extraction that returns is a run from no used name over the
    operations of the document. *)
Lemma extractToolsFromApi_Run fuel h api tools :
  extractToolsFromApi fuel h api = Some tools ->
  Run fuel h (default [] (api_security api)) ∅ (operationsOf api) tools.
Proof.
  rewrite extractToolsFromApi_flat.
  destruct (foldlM _ _ _) as [[tools' usedNames]|] eqn:Hfold; [|done].
  intros [= <-]. apply foldlM_Run in Hfold as (new & -> & Hrun & _). done.
Qed.

(** A run pushes one tool per operation. *)
Lemma Run_Forall2 fuel h globalSecurity usedNames entries tools
    (P : Entry -> McpToolDefinition -> Prop) :
  (forall usedNames entry tool,
      made fuel h globalSecurity usedNames entry tool -> P entry tool) ->
  Run fuel h globalSecurity usedNames entries tools ->
  Forall2 P entries tools.
Proof. intros HP. induction 1; constructor; eauto. Qed.

(** The names a run pushes are new and pairwise distinct. *)
Lemma Run_fresh fuel h globalSecurity usedNames entries tools :
  Run fuel h globalSecurity usedNames entries tools ->
  NoDup (name <$> tools) /\ forall n, n ∈ name <$> tools -> n ∉ usedNames.
Proof.
  induction 1 as [|usedNames entry entries tool tools Hmade Hrun [IHnodup IHfresh]]; simpl.
  - split; [constructor|]. intros n Hn. by apply elem_of_nil in Hn.
  - destruct Hmade as (_ & Huniq & _). apply uniqueName_spec in Huniq as [Hfresh _].
    split.
    + constructor; [|done]. intros Hin. apply IHfresh in Hin. set_solver.
    + intros n [->|Hin]%elem_of_cons; [done|]. apply IHfresh in Hin. set_solver.
Qed.

(** A run over two lists in a row is a run over the first, then one over
    the second from the names used by then. *)
Lemma Run_app fuel h globalSecurity usedNames entries1 entries2 tools :
  Run fuel h globalSecurity usedNames (entries1 ++ entries2) tools ->
  exists tools1 tools2,
    tools = tools1 ++ tools2 /\ List.length tools1 = List.length entries1 /\
    Run fuel h globalSecurity usedNames entries1 tools1 /\
    Run fuel h globalSecurity (namesOf tools1 ∪ usedNames) entries2 tools2.
Proof.
  revert usedNames tools.
  induction entries1 as [|entry entries1 IH]; intros usedNames tools; simpl.
  - intros Hrun. exists [], tools. split; [done|]. split; [done|].
    split; [constructor|]. unfold namesOf. simpl.
    by rewrite (left_id_L ∅ (∪)).
  - inversion 1 as [|? ? ? tool tools' Hmade Hrun]; subst.
    apply IH in Hrun as (tools1 & tools2 & -> & Hlen & Hrun1 & Hrun2).
    exists (tool :: tools1), tools2. split; [done|]. split; [simpl; lia|].
    split; [by constructor|].
    replace (namesOf (tool :: tools1) ∪ usedNames)
      with (namesOf tools1 ∪ ({[name tool]} ∪ usedNames)); [done|].
    unfold namesOf. simpl. set_solver.
Qed.

(** The naming loop never stops an extraction: an operation whose input
    schema can be built gets its tool. *)
Lemma processOperation_returns fuel h globalSecurity st entry :
  is_Some (generateInputSchemaAndDetails fuel h entry.2) ->
  is_Some (processOperation fuel h globalSecurity st entry).
Proof.
  destruct st as [tools usedNames], entry as [[path m] operation]. cbn [snd].
  intros [[[inputSchema parameters] contentType] Hgen]. unfold processOperation.
  destruct (declaredName path m operation) as [|c r]; [done|].
  destruct (uniqueName_returns usedNames (sanitizeName (String c r))) as [n ->].
  by rewrite Hgen.
Qed.

(** The extraction returns when the input schema of every operation can be
    built on the stack at hand. *)
Theorem extraction_returns (fuel : nat) (h : Heap) (api : Document) :
  (forall entry, entry ∈ operationsOf api ->
                 is_Some (generateInputSchemaAndDetails fuel h entry.2)) ->
  is_Some (extractToolsFromApi fuel h api).
Proof.
  rewrite extractToolsFromApi_flat.
  generalize (operationsOf api) ([] : list McpToolDefinition, ∅ : gset string).
  intros entries. induction entries as [|entry entries IH]; intros st Hall; [done|].
  cbn [foldlM].
  destruct (processOperation_returns fuel h (default [] (api_security api)) st entry)
    as [st' ->]; [apply Hall; set_solver|].
  apply IH. intros e He. apply Hall. set_solver.
Qed.

Lemma extraction_returns_witness :
  (forall entry, entry ∈ operationsOf Petstore.api ->
                 is_Some (generateInputSchemaAndDetails 3 Petstore.heap entry.2)) /\
  is_Some (extractToolsFromApi 3 Petstore.heap Petstore.api).
Proof.
  assert (Hall : forall entry, entry ∈ operationsOf Petstore.api ->
                   is_Some (generateInputSchemaAndDetails 3 Petstore.heap entry.2)).
  { intros entry Hin.
    assert (Hops : operationsOf Petstore.api =
                   [("/pets", GET, Petstore.listPets); ("/pets", POST, Petstore.addPet);
                    ("/pets/{petId}", GET, Petstore.listPetsAgain)]) by reflexivity.
    rewrite Hops in Hin.
    repeat (apply elem_of_cons in Hin as [->|Hin]; [vm_compute; by eexists|]).
    by apply elem_of_nil in Hin. }
  split; [exact Hall|].
  exact (extraction_returns 3 Petstore.heap Petstore.api Hall).
Defined.

(** One tool is produced for each operation of the document. *)
Theorem one_tool_per_operation (fuel : nat) (h : Heap) (api : Document)
    (tools : list McpToolDefinition) :
  extractToolsFromApi fuel h api = Some tools ->
  List.length tools = List.length (operationsOf api) /\
  Forall2 (fun (entry : Entry) (tool : McpToolDefinition) =>
             pathTemplate tool = entry.1.1 /\ method tool = methodName entry.1.2)
          (operationsOf api) tools.
Proof.
  intros Hrun%extractToolsFromApi_Run.
  assert (H2 : Forall2 (fun (entry : Entry) (tool : McpToolDefinition) =>
             pathTemplate tool = entry.1.1 /\ method tool = methodName entry.1.2)
          (operationsOf api) tools).
  { eapply Run_Forall2; [|exact Hrun].
    by intros usedNames entry tool (_ & _ & _ & _ & _ & Hmethod & Hpath). }
  split; [|done]. symmetry. by apply Forall2_length in H2.
Qed.

Lemma one_tool_per_operation_witness :
  extractToolsFromApi 3 Petstore.heap Petstore.api = Some Petstore.tools /\
  List.length Petstore.tools = List.length (operationsOf Petstore.api) /\
  Forall2 (fun (entry : Entry) (tool : McpToolDefinition) =>
             pathTemplate tool = entry.1.1 /\ method tool = methodName entry.1.2)
          (operationsOf Petstore.api) Petstore.tools.
Proof.
  split; [by vm_compute|].
  apply (one_tool_per_operation 3 Petstore.heap Petstore.api). by vm_compute.
Defined.

End Loops.

(** ** Tool names and operation identifiers *)
Section ToolNames.
Import JsString ExtractTools Operations.

Lemma sanitizeName_map (s : string) :
  sanitizeName s = JsString.map sanitizeChar s.
Proof.
  unfold sanitizeName, toLowerCase, replaceOthers, replaceDots.
  by rewrite !map_map.
Qed.

(** Line 34 computes what the specification words. *)
Lemma sanitizeName_lowerCasedAndReplaced (s : string) :
  sanitizeName s = lowerCasedAndReplaced s.
Proof.
  rewrite sanitizeName_map. unfold lowerCasedAndReplaced.
  apply map_ext. intros c. apply sanitizeChar_spec.
Qed.

(** A name with an upper-case letter or a dot is changed by line 34. *)
Lemma sanitizeName_changes (s : string) (c : ascii) :
  JsString.In c s -> isUpper c = true \/ c = "."%char -> sanitizeName s <> s.
Proof.
  intros Hin Hc E. rewrite sanitizeName_map in E.
  apply (sanitizeChar_changes c Hc). by apply (map_fixed _ s).
Qed.

Lemma In_nonempty (c : ascii) (s : string) : JsString.In c s -> s <> "".
Proof. by destruct s. Qed.

Lemma namesOf_elem (n : string) (tools : list McpToolDefinition) :
  n ∈ namesOf tools <-> exists t, t ∈ tools /\ name t = n.
Proof.
  unfold namesOf. rewrite elem_of_list_to_set, list_elem_of_fmap. naive_solver.
Qed.

(** C2. For every document, the tools that [extractToolsFromApi] returns
    have pairwise distinct names: the naming loop leaves with a name that
    is not in [usedNames], and the name is added to [usedNames] before the
    next operation is named, so that the loops end with [usedNames] holding
    exactly the names of the tools. *)
Theorem tool_names_are_unique (fuel : nat) (h : Heap) (api : Document)
    (tools : list McpToolDefinition) :
  extractToolsFromApi fuel h api = Some tools ->
  NoDup (name <$> tools) /\
  foldlM (processOperation fuel h (default [] (api_security api))) ([], ∅)
         (operationsOf api)
    = Some (tools, namesOf tools).
Proof.
  intros Hextract. split.
  - apply extractToolsFromApi_Run in Hextract. by apply Run_fresh in Hextract as [Hnodup _].
  - rewrite extractToolsFromApi_flat in Hextract.
    destruct (foldlM _ _ _) as [[tools' usedNames]|] eqn:Hfold; [|done].
    injection Hextract as <-.
    apply foldlM_Run in Hfold as (new & -> & _ & ->).
    cbn [app]. by rewrite (right_id_L ∅ (∪)).
Qed.

Lemma tool_names_are_unique_witness :
  extractToolsFromApi 3 Petstore.heap Petstore.api = Some Petstore.tools /\
  NoDup (name <$> Petstore.tools) /\
  foldlM (processOperation 3 Petstore.heap (default [] (api_security Petstore.api)))
         ([], ∅) (operationsOf Petstore.api)
    = Some (Petstore.tools, namesOf Petstore.tools).
Proof.
  split; [by vm_compute|].
  apply (tool_names_are_unique 3 Petstore.heap Petstore.api). by vm_compute.
Defined.

(** C3, as the specification states it, fails: of two operations that both
    declare [listPets] the second is named [listpets_1], not [listpets_2]. *)
Lemma second_same_name_is_not_suffixed_2 :
  option_map (List.map name) (extractToolsFromApi 3 Petstore.heap Petstore.twoSameNames)
    = Some ["listpets"; "listpets_1"] /\
  baseNameOf ("/pets", GET, Petstore.listPets)
    = baseNameOf ("/pets/{petId}", GET, Petstore.listPetsAgain) /\
  suffixed "listpets" 1 <> suffixed "listpets" 2.
Proof. by vm_compute. Qed.

(** C3, amended. Of two operations of a document whose names sanitize to
    the same base name, with no third one of that base name between them,
    the first keeps the base name when no earlier tool has it, and the
    second then receives the suffix [_1] when no earlier tool has that
    name: the counter of the naming loop starts at 1. *)
Theorem second_same_name_gets_suffix_1 (fuel : nat) (h : Heap) (api : Document)
    (tools : list McpToolDefinition) (before : list Entry) (first : Entry)
    (between : list Entry) (second : Entry) (after : list Entry) :
  extractToolsFromApi fuel h api = Some tools ->
  operationsOf api = before ++ first :: between ++ second :: after ->
  baseNameOf first = baseNameOf second ->
  exists toolsBefore toolFirst toolsBetween toolSecond toolsAfter,
    tools = toolsBefore ++ toolFirst :: toolsBetween ++ toolSecond :: toolsAfter /\
    List.length toolsBefore = List.length before /\
    List.length toolsBetween = List.length between /\
    ((forall t, t ∈ toolsBefore -> name t <> baseNameOf first) ->
     name toolFirst = baseNameOf first /\
     ((forall t, t ∈ toolsBefore ++ toolsBetween ->
                 name t <> suffixed (baseNameOf first) 1) ->
      name toolSecond = suffixed (baseNameOf first) 1)).
Proof.
  intros Hrun%extractToolsFromApi_Run Hops Hsame. rewrite Hops in Hrun.
  apply Run_app in Hrun as (toolsBefore & rest & -> & Hlen1 & _ & Hrun).
  inversion Hrun as [|? ? ? toolFirst rest' Hfirst Hrun']; subst.
  apply Run_app in Hrun' as (toolsBetween & rest'' & -> & Hlen2 & _ & Hrun'').
  inversion Hrun'' as [|? ? ? toolSecond toolsAfter Hsecond _]; subst.
  exists toolsBefore, toolFirst, toolsBetween, toolSecond, toolsAfter.
  repeat (split; [done|]).
  destruct Hfirst as (Hid1 & Huniq1 & _). destruct Hsecond as (Hid2 & Huniq2 & _).
  fold (baseNameOf first) in Hid1. fold (baseNameOf second) in Hid2.
  rewrite Hid1 in Huniq1. rewrite Hid2, <- Hsame in Huniq2.
  intros Hfree.
  assert (Hfirst : name toolFirst = baseNameOf first).
  { rewrite uniqueName_free in Huniq1; [congruence|].
    rewrite elem_of_union, namesOf_elem. intros [(t & Ht & E)|Hin]; [|set_solver].
    by apply (Hfree t). }
  split; [done|]. intros Hfree1.
  rewrite uniqueName_first_collision in Huniq2; [congruence| |].
  - set_solver.
  - rewrite !elem_of_union, !namesOf_elem, elem_of_singleton.
    intros [(t & Ht & E)|[E|[(t & Ht & E)|Hin]]]; [| | |set_solver].
    + apply (Hfree1 t); [|done]. apply elem_of_app. by right.
    + rewrite Hfirst in E. by apply suffixed_ne_base in E.
    + apply (Hfree1 t); [|done]. apply elem_of_app. by left.
Qed.

Lemma second_same_name_gets_suffix_1_witness :
  exists toolsBefore toolFirst toolsBetween toolSecond toolsAfter,
    Petstore.twoSameNamesTools
    = toolsBefore ++ toolFirst :: toolsBetween ++ toolSecond :: toolsAfter /\
    List.length toolsBefore = List.length (@nil Entry) /\
    List.length toolsBetween = List.length (@nil Entry) /\
    ((forall t, t ∈ toolsBefore -> name t <> baseNameOf ("/pets", GET, Petstore.listPets)) ->
     name toolFirst = baseNameOf ("/pets", GET, Petstore.listPets) /\
     ((forall t, t ∈ toolsBefore ++ toolsBetween ->
                 name t <> suffixed (baseNameOf ("/pets", GET, Petstore.listPets)) 1) ->
      name toolSecond = suffixed (baseNameOf ("/pets", GET, Petstore.listPets)) 1)).
Proof.
  apply (second_same_name_gets_suffix_1 3 Petstore.heap Petstore.twoSameNames
           Petstore.twoSameNamesTools
           [] ("/pets", GET, Petstore.listPets)
           [] ("/pets/{petId}", GET, Petstore.listPetsAgain) []).
  - by vm_compute.
  - reflexivity.
  - by vm_compute.
Defined.

(** C10. The [operationId] of every tool is the sanitized base name. Where
    the operation declares an identifier that is not empty, it is that
    identifier lower-cased and with the dot and every other character
    outside [[a-z0-9_-]] replaced by an underscore; where the operation
    declares none, or the empty one, it is the identifier synthesized from
    the method and the path, treated alike. So the name of the tool is this
    [operationId], or this [operationId] with a collision suffix; and where
    the operation declares an identifier that has an upper-case letter or a
    dot, [operationId] is not that identifier. *)
Theorem operationId_is_sanitized_base_name (fuel : nat) (h : Heap) (api : Document)
    (tools : list McpToolDefinition) :
  extractToolsFromApi fuel h api = Some tools ->
  Forall2
    (fun (entry : Entry) (tool : McpToolDefinition) =>
       (forall id : string,
           op_operationId entry.2 = Some id -> id <> "" ->
           operationId tool = lowerCasedAndReplaced id) /\
       (truthy (op_operationId entry.2) = false ->
        operationId tool
          = lowerCasedAndReplaced
              (CodeGen.generateOperationId (methodName entry.1.2) entry.1.1)) /\
       (name tool = operationId tool \/
        exists k, 1 <= k /\ name tool = suffixed (operationId tool) k) /\
       (forall (id : string) (c : ascii),
           op_operationId entry.2 = Some id -> JsString.In c id ->
           isUpper c = true \/ c = "."%char ->
           operationId tool <> id))
    (operationsOf api) tools.
Proof.
  intros Hrun%extractToolsFromApi_Run.
  eapply Run_Forall2; [|exact Hrun].
  intros usedNames entry tool (Hid & Huniq & _).
  rewrite sanitizeName_lowerCasedAndReplaced in Hid.
  split; [|split; [|split]].
  - intros id Hdecl Hne. by rewrite Hid, (declaredName_declared _ _ _ id Hdecl Hne).
  - intros Hnone. rewrite Hid. f_equal. unfold declaredName, orDefault.
    by destruct (op_operationId entry.2) as [[|? ?]|].
  - apply uniqueName_spec in Huniq as [_ [[-> _]|(_ & k & Hk & -> & _)]]; eauto.
  - intros id c Hdecl Hin Hc. rewrite Hid, <- sanitizeName_lowerCasedAndReplaced.
    rewrite (declaredName_declared _ _ _ id Hdecl (In_nonempty c id Hin)).
    by apply (sanitizeName_changes id c).
Qed.

Lemma operationId_is_sanitized_base_name_witness :
  extractToolsFromApi 3 Petstore.heap Petstore.api = Some Petstore.tools /\
  Forall2
    (fun (entry : Entry) (tool : McpToolDefinition) =>
       (forall id : string,
           op_operationId entry.2 = Some id -> id <> "" ->
           operationId tool = lowerCasedAndReplaced id) /\
       (truthy (op_operationId entry.2) = false ->
        operationId tool
          = lowerCasedAndReplaced
              (CodeGen.generateOperationId (methodName entry.1.2) entry.1.1)) /\
       (name tool = operationId tool \/
        exists k, 1 <= k /\ name tool = suffixed (operationId tool) k) /\
       (forall (id : string) (c : ascii),
           op_operationId entry.2 = Some id -> JsString.In c id ->
           isUpper c = true \/ c = "."%char ->
           operationId tool <> id))
    (operationsOf Petstore.api) Petstore.tools.
Proof.
  split; [by vm_compute|].
  apply (operationId_is_sanitized_base_name 3 Petstore.heap Petstore.api). by vm_compute.
Defined.

(** C6. The security requirements of a tool are those its own operation
    declares, the empty list included (no authentication, whatever the
    document declares); an operation that declares none, or [null], gets
    the requirements of the document, which are none when the document
    declares none. Each tool depends on its own operation only. *)
Theorem security_requirements_of_each_tool (fuel : nat) (h : Heap) (api : Document)
    (tools : list McpToolDefinition) :
  extractToolsFromApi fuel h api = Some tools ->
  Forall2
    (fun (entry : Entry) (tool : McpToolDefinition) =>
       (op_security entry.2 = Val [] -> securityRequirements tool = []) /\
       (forall declared, op_security entry.2 = Val declared ->
                         securityRequirements tool = declared) /\
       (op_security entry.2 = Undefined ->
        securityRequirements tool = default [] (api_security api)) /\
       (op_security entry.2 = Null ->
        securityRequirements tool = default [] (api_security api)))
    (operationsOf api) tools.
Proof.
  intros Hrun%extractToolsFromApi_Run.
  eapply Run_Forall2; [|exact Hrun].
  intros usedNames entry tool (_ & _ & _ & _ & Hsec & _). rewrite Hsec. unfold securityOf.
  repeat split; intros; by destruct (op_security _); simplify_eq.
Qed.

Lemma security_requirements_of_each_tool_witness :
  extractToolsFromApi 3 Petstore.heap Petstore.api = Some Petstore.tools /\
  Forall2
    (fun (entry : Entry) (tool : McpToolDefinition) =>
       (op_security entry.2 = Val [] -> securityRequirements tool = []) /\
       (forall declared, op_security entry.2 = Val declared ->
                         securityRequirements tool = declared) /\
       (op_security entry.2 = Undefined ->
        securityRequirements tool = default [] (api_security Petstore.api)) /\
       (op_security entry.2 = Null ->
        securityRequirements tool = default [] (api_security Petstore.api)))
    (operationsOf Petstore.api) Petstore.tools.
Proof.
  split; [by vm_compute|].
  apply (security_requirements_of_each_tool 3 Petstore.heap Petstore.api). by vm_compute.
Defined.

End ToolNames.

(** ** Schema translation *)
Section Translation.
Import SchemaTranslator SchemaGraph.

Lemma forEachM_Some {A B : Type} (f : A -> option B) (l : list A) (ys : list B) (x : A) :
  forEachM f l = Some ys -> x ∈ l -> is_Some (f x).
Proof.
  revert ys. induction l as [|a l IH]; intros ys; simpl.
  - intros _ Hin. by apply elem_of_nil in Hin.
  - destruct (f a) as [y|] eqn:Hfa; [|done].
    destruct (forEachM f l) as [ys'|]; [|done].
    intros _ [->|Hin]%elem_of_cons; [by rewrite Hfa|]. by apply (IH ys').
Qed.

Lemma forEachM_ext {A B : Type} (f g : A -> option B) (l : list A) (ys : list B) :
  (forall x y, f x = Some y -> g x = Some y) ->
  forEachM f l = Some ys -> forEachM g l = Some ys.
Proof.
  intros Hfg. revert ys. induction l as [|a l IH]; intros ys; simpl; [done|].
  destruct (f a) as [y|] eqn:Hfa; [|done]. rewrite (Hfg a y Hfa).
  destruct (forEachM f l) as [ys'|]; [|done]. by rewrite (IH ys' eq_refl).
Qed.

Lemma mapProperties_mono (recur recur' : loc -> option JSONSchema) type properties r :
  (forall l j, recur l = Some j -> recur' l = Some j) ->
  mapProperties recur type properties = Some r ->
  mapProperties recur' type properties = Some r.
Proof.
  intros Hmono. unfold mapProperties.
  destruct properties as [props|]; [|done]. case_bool_decide; [|done].
  destruct (forEachM (mapProperty recur) props) as [mapped|] eqn:Hmapped; [|done].
  erewrite forEachM_ext; [done| |exact Hmapped].
  intros [key [p|b|]] y; unfold mapProperty; cbn [fst snd]; try done.
  destruct (recur p) as [j|] eqn:Hp; [|done]. by rewrite (Hmono p j Hp).
Qed.

Lemma mapItems_mono (recur recur' : loc -> option JSONSchema) type items r :
  (forall l j, recur l = Some j -> recur' l = Some j) ->
  mapItems recur type items = Some r ->
  mapItems recur' type items = Some r.
Proof.
  intros Hmono. unfold mapItems.
  destruct items as [[i|b|]|]; try done. case_bool_decide; [|done].
  destruct (recur i) as [j|] eqn:Hi; [|done]. by rewrite (Hmono i j Hi).
Qed.

(** A deeper stack changes no result. *)
Lemma mapOpenApiSchemaToJsonSchema_more_fuel fuel h l j :
  mapOpenApiSchemaToJsonSchema fuel h l = Some j ->
  mapOpenApiSchemaToJsonSchema (S fuel) h l = Some j.
Proof.
  revert l j. induction fuel as [|fuel IH]; intros l j Hj; [done|].
  remember (S fuel) as n eqn:Hn.
  rewrite Hn in Hj. cbn [mapOpenApiSchemaToJsonSchema] in Hj |- *.
  destruct (s_ref (h l)); [done|].
  destruct (mapProperties _ _ _) as [properties|] eqn:Hprops in Hj; [|done].
  destruct (mapItems _ _ _) as [items|] eqn:Hitems in Hj; [|done].
  by rewrite (mapProperties_mono _ _ _ _ _ IH Hprops), (mapItems_mono _ _ _ _ _ IH Hitems).
Qed.

(** A call that returns had its inner calls return, on one frame less. *)
Lemma traverses_inner_call fuel h l l' :
  traverses h l l' ->
  is_Some (mapOpenApiSchemaToJsonSchema (S fuel) h l) ->
  is_Some (mapOpenApiSchemaToJsonSchema fuel h l').
Proof.
  intros [Href Hedge] [j Hj]. cbn [mapOpenApiSchemaToJsonSchema] in Hj. rewrite Href in Hj.
  destruct (mapProperties _ _ _) as [properties|] eqn:Hprops in Hj; [|done].
  destruct (mapItems _ _ _) as [items|] eqn:Hitems in Hj; [|done].
  destruct Hedge as [(Htype & props & key & Hp & Hin)|(Htype & Hi)].
  - unfold mapProperties in Hprops.
    rewrite Hp, Htype, bool_decide_eq_true_2 in Hprops by done.
    destruct (forEachM _ props) as [mapped|] eqn:Hmapped; [|done].
    apply (forEachM_Some _ _ _ _ Hmapped) in Hin as [y Hy].
    unfold mapProperty in Hy. cbn [fst snd] in Hy.
    by destruct (mapOpenApiSchemaToJsonSchema fuel h l').
  - unfold mapItems in Hitems.
    rewrite Hi, Htype, bool_decide_eq_true_2 in Hitems by done.
    by destruct (mapOpenApiSchemaToJsonSchema fuel h l').
Qed.

Lemma entersCycle_step h l :
  entersCycle h l -> exists l', traverses h l l' /\ entersCycle h l'.
Proof.
  intros (c & Hreach & Hcycle). destruct Hreach as [l|l y c Hstep Hreach].
  - inversion Hcycle as [? ? Hstep|? y ? Hstep Hback]; subst.
    + exists l. split; [done|]. exists l. split; [constructor|done].
    + exists y. split; [done|]. exists l. split; [by apply tc_rtc|done].
  - exists y. split; [done|]. by exists c.
Qed.

(** No stack is deep enough for a schema that reaches itself. *)
Lemma entersCycle_never_returns h l fuel :
  entersCycle h l -> mapOpenApiSchemaToJsonSchema fuel h l = None.
Proof.
  revert l. induction fuel as [|fuel IH]; intros l Hcycle; [done|].
  apply entersCycle_step in Hcycle as (l' & Hstep & Hcycle').
  destruct (mapOpenApiSchemaToJsonSchema (S fuel) h l) as [j|] eqn:Hj; [|done].
  assert (Hinner : is_Some (mapOpenApiSchemaToJsonSchema fuel h l'))
    by (apply (traverses_inner_call _ _ l); [done|by rewrite Hj]).
  rewrite (IH l' Hcycle') in Hinner. by destruct Hinner.
Qed.

(** The translation returns for the schemas without a cycle: here the array
    of pets of the sample document, on a stack of three frames. *)
Example acyclic_schema_is_translated :
  mapOpenApiSchemaToJsonSchema 3 Petstore.heap 8 =
  Some (JObject (Some (TName "array")) None
          (Some (JObject (Some (TName "object"))
                   (Some [("id", JObject (Some (TArray ["number"; "null"]))
                                   None None None None []);
                          ("name", JObject (Some (TName "string"))
                                     None None None None [])])
                   None None None []))
          None None []).
Proof. reflexivity. Qed.

Lemma self_reference_entersCycle : entersCycle Petstore.heap 3.
Proof.
  exists 3. split; [constructor|]. apply tc_once. split; [done|]. left.
  split; [done|]. exists [("value", VObject 0); ("next", VObject 3)], "next".
  split; [done|]. set_solver.
Qed.

Lemma mutual_reference_entersCycle : entersCycle Petstore.heap 4.
Proof.
  exists 4. split; [constructor|]. apply (tc_l _ _ 5); [|apply tc_once].
  - split; [done|]. left. split; [done|]. exists [("b", VObject 5)], "b".
    split; [done|]. set_solver.
  - split; [done|]. left. split; [done|]. exists [("a", VObject 4)], "a".
    split; [done|]. set_solver.
Qed.

(** C1 does not hold of the code. The translator keeps no set of visited
    nodes: for the list node that holds itself under [next] (location 3),
    and for the two objects that hold each other (location 4), the
    translation returns on no stack, however deep, and no placeholder is
    ever substituted; an extraction that meets such a schema does not
    return either. *)
Theorem cyclic_schema_exhausts_every_stack (fuel : nat) :
  mapOpenApiSchemaToJsonSchema fuel Petstore.heap 3 = None /\
  mapOpenApiSchemaToJsonSchema fuel Petstore.heap 4 = None /\
  ExtractTools.extractToolsFromApi fuel Petstore.heap Petstore.pushNode = None.
Proof.
  pose proof (entersCycle_never_returns _ _ fuel self_reference_entersCycle) as Hself.
  split; [done|]. split; [apply entersCycle_never_returns, mutual_reference_entersCycle|].
  unfold ExtractTools.extractToolsFromApi, Petstore.pushNode. cbn [api_paths foldlM].
  unfold ExtractTools.processPath. cbn [snd fst]. unfold allMethods. cbn [foldlM].
  unfold ExtractTools.processOperation.
  replace (ExtractTools.generateInputSchemaAndDetails fuel Petstore.heap _) with
    (@None (JSONSchema * list ParameterObject * option string)); [done|].
  unfold ExtractTools.generateInputSchemaAndDetails. cbn [op_parameters Petstore.operation default foldlM op_requestBody].
  unfold ExtractTools.addRequestBody. cbn. by rewrite Hself.
Qed.

(** C9, as the specification states it, fails in two places: for the
    nullable integer of location 1 the type of the result is [number] and
    [null], not [integer] and [null]; for the unresolved reference of
    location 6, marked nullable, it is [object]. *)
Lemma nullable_integer_folds_to_number :
  s_nullable (Petstore.heap 1) = true /\
  s_type (Petstore.heap 1) = Some (TName "integer") /\
  Json.type <$> mapOpenApiSchemaToJsonSchema 1 Petstore.heap 1
    = Some (Some (TArray ["number"; "null"])) /\
  TArray ["number"; "null"] <> TArray ["integer"; "null"] /\
  s_nullable (Petstore.heap 6) = true /\
  Json.type <$> mapOpenApiSchemaToJsonSchema 1 Petstore.heap 6
    = Some (Some (TName "object")).
Proof. by vm_compute. Qed.

(** C9, amended. A schema object marked nullable, not an unresolved
    reference, is translated on any stack of one frame or more, and [null]
    is folded into its type: an array of types gets ['null'] appended
    unless it has it; a single type name becomes the array of that name,
    with [integer] normalised to [number], and ['null']; a node with no type
    gets the type ['null']. So a nullable string has exactly the types
    [string] and [null]. *)
Theorem nullable_folds_null_into_type (fuel : nat) (h : Heap) (l : loc) :
  s_ref (h l) = None ->
  s_nullable (h l) = true ->
  exists j,
    mapOpenApiSchemaToJsonSchema (S fuel) h l = Some j /\
    Json.type j =
      Some (match s_type (h l) with
            | Some (TArray ts) =>
                if bool_decide ("null" ∈ ts) then TArray ts else TArray (ts ++ ["null"])
            | Some (TName n) =>
                TArray [if String.eqb n "integer" then "number" else n; "null"]
            | None => TName "null"
            end) /\
    (s_type (h l) = Some (TName "string") -> Json.type j = Some (TArray ["string"; "null"])).
Proof.
  intros Href Hnullable. cbn [mapOpenApiSchemaToJsonSchema]. rewrite Href.
  assert (Htype : mappedType (h l) =
      Some (match s_type (h l) with
            | Some (TArray ts) =>
                if bool_decide ("null" ∈ ts) then TArray ts else TArray (ts ++ ["null"])
            | Some (TName n) =>
                TArray [if String.eqb n "integer" then "number" else n; "null"]
            | None => TName "null"
            end)).
  { unfold mappedType. rewrite Hnullable.
    destruct (s_type (h l)) as [[n|ts]|]; cbn; [by destruct (String.eqb n "integer")| |done].
    by case_bool_decide. }
  assert (Hnot : forall t, t = "object" \/ t = "array" -> mappedType (h l) <> Some (TName t)).
  { intros t Ht. rewrite Htype.
    destruct (s_type (h l)) as [[n|ts]|]; [done|by case_bool_decide|].
    intros [= <-]. by destruct Ht. }
  assert (Hprops : is_Some (mapProperties (mapOpenApiSchemaToJsonSchema fuel h)
                              (mappedType (h l)) (s_properties (h l)))).
  { unfold mapProperties. destruct (s_properties (h l)); [|done].
    rewrite bool_decide_eq_false_2; [done|]. apply Hnot. by left. }
  assert (Hitems : is_Some (mapItems (mapOpenApiSchemaToJsonSchema fuel h)
                              (mappedType (h l)) (s_items (h l)))).
  { unfold mapItems. destruct (s_items (h l)) as [[i|b|]|]; try done.
    rewrite bool_decide_eq_false_2; [done|]. apply Hnot. by right. }
  destruct Hprops as [properties ->], Hitems as [items ->].
  eexists. split; [reflexivity|]. cbn [Json.type]. split; [done|].
  intros Hstring. by rewrite Htype, Hstring.
Qed.

Lemma nullable_folds_null_into_type_witness :
  exists j,
    mapOpenApiSchemaToJsonSchema 1 Petstore.heap 7 = Some j /\
    Json.type j =
      Some (match s_type (Petstore.heap 7) with
            | Some (TArray ts) =>
                if bool_decide ("null" ∈ ts) then TArray ts else TArray (ts ++ ["null"])
            | Some (TName n) =>
                TArray [if String.eqb n "integer" then "number" else n; "null"]
            | None => TName "null"
            end) /\
    (s_type (Petstore.heap 7) = Some (TName "string") ->
     Json.type j = Some (TArray ["string"; "null"])).
Proof.
  apply (nullable_folds_null_into_type 0 Petstore.heap 7); reflexivity.
Defined.

End Translation.

(** ** Execution parameters and the input schema *)
Section InputSchema.
Import ExtractTools Operations SchemaTranslator.

Lemma objHas_elem {A : Type} (key : string) (obj : list (string * A)) :
  objHas key obj = true <-> key ∈ objKeys obj.
Proof.
  unfold objHas, objKeys. induction obj as [|[k v] obj IH]; cbn.
  - split; [done|]. by intros ?%elem_of_nil.
  - rewrite orb_true_iff, IH, elem_of_cons, String.eqb_eq. naive_solver.
Qed.

Lemma objKeys_objReplace {A : Type} (key : string) (value : A) (obj : list (string * A)) :
  objKeys (objReplace key value obj) = objKeys obj.
Proof.
  unfold objKeys. induction obj as [|[k v] obj IH]; cbn; [done|].
  destruct (String.eqb k key); cbn; [done|by rewrite IH].
Qed.

Lemma objKeys_objInsertIndex {A : Type} (n : N) (key : string) (value : A)
    (obj : list (string * A)) :
  objKeys (objInsertIndex n key value obj) ≡ₚ key :: objKeys obj.
Proof.
  unfold objKeys. induction obj as [|[k v] obj IH]; cbn; [done|].
  destruct (arrayIndex k) as [m|]; [|done].
  destruct (m <? n)%N; [|done]. cbn. rewrite IH. apply Permutation_swap.
Qed.

(** The own keys after [obj[key] = value]: the key is added unless it is
    there already, or is [__proto__]. *)
Lemma objKeys_objSet_new {A : Type} (key : string) (value : A) (obj : list (string * A)) :
  key <> "__proto__" -> key ∉ objKeys obj ->
  objKeys (objSet key value obj) ≡ₚ key :: objKeys obj.
Proof.
  intros Hproto Hnew. unfold objSet.
  rewrite (proj2 (String.eqb_neq _ _) Hproto).
  destruct (objHas key obj) eqn:Hhas; [by apply objHas_elem in Hhas|].
  destruct (arrayIndex key) as [n|]; [apply objKeys_objInsertIndex|].
  unfold objKeys. rewrite fmap_app. cbn. by rewrite Permutation_app_comm.
Qed.

Lemma objKeys_objSet_old {A : Type} (key : string) (value : A) (obj : list (string * A)) :
  key = "__proto__" \/ key ∈ objKeys obj ->
  objKeys (objSet key value obj) = objKeys obj.
Proof.
  unfold objSet. destruct (String.eqb_spec key "__proto__") as [->|Hproto]; [done|].
  intros [?|Hin]; [done|].
  rewrite (proj2 (objHas_elem key obj) Hin). apply objKeys_objReplace.
Qed.

Lemma objKeys_objSet {A : Type} (key : string) (value : A) (obj : list (string * A))
    (k : string) :
  k ∈ objKeys (objSet key value obj) <->
  (k = key /\ key <> "__proto__") \/ k ∈ objKeys obj.
Proof.
  destruct (decide (key = "__proto__" \/ key ∈ objKeys obj)) as [Hold|Hnew].
  - rewrite (objKeys_objSet_old key value obj Hold). naive_solver.
  - rewrite objKeys_objSet_new by tauto. rewrite elem_of_cons. naive_solver.
Qed.


(** No assignment makes [__proto__] an own key. *)
Lemma objKeys_objSet_proto {A : Type} (key : string) (value : A) (obj : list (string * A)) :
  "__proto__" ∉ objKeys obj -> "__proto__" ∉ objKeys (objSet key value obj).
Proof. rewrite objKeys_objSet. naive_solver. Qed.








End InputSchema.

(** ** Security resolution *)
Section Resolution.
Import Security.

Lemma requirementMet_true env schemes (req : SecurityRequirementObject) :
  requirementMet env schemes req = true <->
  forall entry, entry ∈ req -> schemeAvailable env schemes entry.1 = true.
Proof.
  unfold requirementMet. rewrite forallb_forall.
  split; intros H entry Hin; apply H; by apply list_elem_of_In.
Qed.

Lemma requirementMet_false env schemes (req : SecurityRequirementObject) :
  requirementMet env schemes req = false <->
  exists entry, entry ∈ req /\ schemeAvailable env schemes entry.1 = false.
Proof.
  unfold requirementMet. induction req as [|entry req IH]; simpl.
  - split; [done|]. intros (entry & Hin & _). by apply elem_of_nil in Hin.
  - rewrite andb_false_iff, IH. split.
    + intros [Hfalse|(e & Hin & Hfalse)]; [exists entry|exists e]; split; set_solver.
    + intros (e & [->|Hin]%elem_of_cons & Hfalse); [by left|]. right. by exists e.
Qed.

(** C5. Security resolution returns the first requirement, in declared
    order, all of whose named schemes are available (every scheme of an
    entry must be available; an earlier entry with an unavailable scheme is
    passed over), and returns none when every requirement names a scheme
    that is not available. *)
Theorem applied_security_is_first_satisfiable (env : Env)
    (schemes : gmap string SecurityScheme) (requirements : list SecurityRequirementObject) :
  match appliedSecurity env schemes requirements with
  | Some req =>
      exists earlier later,
        requirements = earlier ++ req :: later /\
        (forall entry, entry ∈ req -> schemeAvailable env schemes entry.1 = true) /\
        (forall r, r ∈ earlier ->
                   exists entry, entry ∈ r /\ schemeAvailable env schemes entry.1 = false)
  | None =>
      forall r, r ∈ requirements ->
                exists entry, entry ∈ r /\ schemeAvailable env schemes entry.1 = false
  end.
Proof.
  unfold appliedSecurity. induction requirements as [|r rs IH]; simpl.
  - intros r Hin. by apply elem_of_nil in Hin.
  - destruct (requirementMet env schemes r) eqn:Hmet.
    + exists [], rs. split; [done|]. split; [by apply requirementMet_true|].
      intros r' Hin. by apply elem_of_nil in Hin.
    + apply requirementMet_false in Hmet.
      destruct (find _ rs) as [req|].
      * destruct IH as (earlier & later & -> & Hall & Hearlier).
        exists (r :: earlier), later. split; [done|]. split; [done|].
        intros r' [->|Hin]%elem_of_cons; auto.
      * intros r' [->|Hin]%elem_of_cons; auto.
Qed.

(** The two examples of the specification: of [{A}] or [{B}] with the
    credentials of [B] only, [{B}] is applied; [{A, B}] is applied with
    neither the credentials of [A] alone nor those of [B] alone. *)
Example applied_security_or_and :
  let schemes : gmap string SecurityScheme :=
    <["A" := Petstore.apiKeyScheme]> (<["B" := Petstore.apiKeyScheme]> ∅) in
  let onlyA : Env := <["API_KEY_A" := "a"]> ∅ in
  let onlyB : Env := <["API_KEY_B" := "b"]> ∅ in
  appliedSecurity onlyB schemes [[("A", [])]; [("B", [])]] = Some [("B", [])] /\
  appliedSecurity onlyA schemes [[("A", []); ("B", [])]] = None /\
  appliedSecurity onlyB schemes [[("A", []); ("B", [])]] = None.
Proof. by vm_compute. Qed.

End Resolution.

(** ** OAuth2 token acquisition *)
Section Acquisition.
Import Security.

(** [getEnvVarName] names the variables by the documented convention. *)
Lemma getEnvVarName_convention (schemeName : string) (k : CredentialKind) :
  getEnvVarName schemeName k = kindName k +:+ "_" +:+ sanitizedName schemeName.
Proof. reflexivity. Qed.

(** The resolver reads the variable [getEnvVarName] names for the scheme
    of the requirement; the generated acquisition reads it only for a
    scheme whose sanitized name is [SCHEMENAME]. *)
Lemma clientIdVar_is_conventional_iff (schemeName : string) :
  clientIdVar = getEnvVarName schemeName OAUTH_CLIENT_ID <->
  sanitizedName schemeName = "SCHEMENAME".
Proof.
  unfold clientIdVar, getEnvVarName. split.
  - intros E. apply (inj (String.app _)), (inj (String.app _)) in E. by rewrite <- E.
  - by intros ->.
Qed.

(** C4 does not hold of the code. For the scheme [petstore_auth] the
    convention names [OAUTH_CLIENT_ID_PETSTORE_AUTH] and
    [OAUTH_CLIENT_SECRET_PETSTORE_AUTH], and with these set the resolver
    finds the scheme available; the generated [acquireOAuth2Token] reads
    [OAUTH_CLIENT_ID_SCHEMENAME] and [OAUTH_CLIENT_SECRET_SCHEMENAME]
    instead, finds no credentials, and returns [null] without a request. *)
Theorem acquisition_reads_placeholder_variables
    (axios : TokenRequest -> Reply) (now : Z) (w : World) :
  getEnvVarName "petstore_auth" OAUTH_CLIENT_ID = "OAUTH_CLIENT_ID_PETSTORE_AUTH" /\
  getEnvVarName "petstore_auth" OAUTH_CLIENT_SECRET = "OAUTH_CLIENT_SECRET_PETSTORE_AUTH" /\
  clientIdVar = "OAUTH_CLIENT_ID_SCHEMENAME" /\
  clientSecretVar = "OAUTH_CLIENT_SECRET_SCHEMENAME" /\
  schemeAvailable Petstore.documentedEnv Petstore.securitySchemes "petstore_auth" = true /\
  acquireOAuth2Token Petstore.documentedEnv axios now "petstore_auth" Petstore.oauthScheme w
    = (None, w).
Proof.
  repeat (split; [by vm_compute|]).
  unfold acquireOAuth2Token.
  by replace (Petstore.documentedEnv !! clientIdVar) with (@None string) by (by vm_compute).
Qed.

(** What the generated function does where the variables it reads, the
    placeholder ones, hold a client id and a client secret. With a token
    URL declared and nothing cached under the key of the scheme and the
    client id, a call whose request is answered with a token sends that one
    request and caches the token until [now + expires_in * 1000 - 60000]
    milliseconds, where [expires_in] is taken to be 3600 when the response
    omits it and also when it gives 0. A later call before that time
    returns the cached token, sends nothing and leaves the cache as it is;
    a call at or after that time sends a new request. *)
Lemma placeholder_credentials_reach_the_cache (env : Env) (axios : TokenRequest -> Reply)
    (now : Z) (schemeName : string) (scheme : SecurityScheme) (w : World)
    (clientId clientSecret url tok : string) (expires_in : option Z) :
  env !! clientIdVar = Some clientId -> clientId <> "" ->
  env !! clientSecretVar = Some clientSecret -> clientSecret <> "" ->
  tokenUrlOf scheme = Some url ->
  default ∅ (tokenCache w) !! cacheKey schemeName clientId = None ->
  axios (tokenRequest env url clientId clientSecret)
    = Response (Some {| access_token := Some tok; expires_in := expires_in |}) ->
  tok <> "" ->
  let expiry := (now + expiresInOr3600 expires_in * 1000 - 60000)%Z in
  let first := acquireOAuth2Token env axios now schemeName scheme w in
  first.1 = Some tok /\
  sent first.2 = sent w ++ [tokenRequest env url clientId clientSecret] /\
  tokenCache first.2
    = Some (<[cacheKey schemeName clientId := {| token := tok; expiresAt := expiry |}]>
              (default ∅ (tokenCache w))) /\
  (expires_in = None \/ expires_in = Some 0%Z -> expiry = (now + 3540000)%Z) /\
  (forall e, expires_in = Some e -> e <> 0%Z -> expiry = (now + e * 1000 - 60000)%Z) /\
  (forall axios' now', (now' < expiry)%Z ->
     acquireOAuth2Token env axios' now' schemeName scheme first.2 = (Some tok, first.2)) /\
  (forall axios' now', (expiry <= now')%Z ->
     sent (acquireOAuth2Token env axios' now' schemeName scheme first.2).2
       = sent first.2 ++ [tokenRequest env url clientId clientSecret]).
Proof.
  intros Hid Hidne Hsecret Hsecretne Hurl Hfresh Hreply Htok expiry first.
  assert (Hfirst : first =
    (Some tok,
     {| tokenCache :=
          Some (<[cacheKey schemeName clientId := {| token := tok; expiresAt := expiry |}]>
                  (default ∅ (tokenCache w)));
        sent := sent w ++ [tokenRequest env url clientId clientSecret] |})).
  { unfold first, acquireOAuth2Token. rewrite Hid, Hsecret.
    destruct clientId as [|c1 r1]; [done|]. destruct clientSecret as [|c2 r2]; [done|].
    rewrite Hfresh, Hurl, Hreply. by destruct tok. }
  rewrite Hfirst. cbn [fst snd tokenCache sent].
  repeat (split; [done|]).
  split; [|split; [|split]].
  - unfold expiry. intros [->| ->]; cbn; lia.
  - unfold expiry. intros e -> He. destruct e; [done|cbn; lia|cbn; lia].
  - intros axios' now' Hbefore. unfold acquireOAuth2Token. rewrite Hid, Hsecret.
    destruct clientId as [|c1 r1]; [done|]. destruct clientSecret as [|c2 r2]; [done|].
    cbv zeta. cbn [tokenCache sent default from_option id].
    rewrite lookup_insert_eq. cbn [expiresAt token].
    by rewrite (proj2 (Z.ltb_lt _ _) Hbefore).
  - intros axios' now' Hafter. unfold acquireOAuth2Token. rewrite Hid, Hsecret.
    destruct clientId as [|c1 r1]; [done|]. destruct clientSecret as [|c2 r2]; [done|].
    cbv zeta. cbn [tokenCache sent default from_option id].
    rewrite lookup_insert_eq. cbn [expiresAt token].
    rewrite (proj2 (Z.ltb_ge _ _) Hafter), Hurl.
    by destruct (axios' _) as [|[[[[|??]|] ?]|]].
Qed.

(** Without a client id or a client secret in the variables it reads, the
    generated function returns [null], sends nothing and caches nothing. *)
Lemma acquisition_without_placeholder_credentials (env : Env)
    (axios : TokenRequest -> Reply) (now : Z) (schemeName : string)
    (scheme : SecurityScheme) (w : World) :
  isSet env clientIdVar = false \/ isSet env clientSecretVar = false ->
  acquireOAuth2Token env axios now schemeName scheme w = (None, w).
Proof.
  unfold acquireOAuth2Token, isSet.
  destruct (env !! clientIdVar) as [[|c1 r1]|]; [done| |done].
  destruct (env !! clientSecretVar) as [[|c2 r2]|]; [done| |done].
  by intros [?|?].
Qed.

(** C7 does not hold of the code, in two ways.

    First, the generated function takes the client credentials from the
    variables [OAUTH_CLIENT_ID_SCHEMENAME] and
    [OAUTH_CLIENT_SECRET_SCHEMENAME], whatever the scheme is called; these
    are the variables of a scheme only if its sanitized name is
    [SCHEMENAME]. Where they are not set a call returns [null], sends no
    request and caches nothing, the first call and every later one: so it
    is for the scheme [petstore_auth] with its credentials set under the
    names documented for it, a token URL declared and the resolver finding
    the scheme available.

    Second, where a token is acquired and the response gives
    [expires_in: 0], the token is cached until [now + 3540000]
    milliseconds, as where [expires_in] is left out, not until
    [now + 0 * 1000 - 60000]: every call before [now + 3540000] returns the
    cached token and sends nothing, though the lifetime less the margin is
    over at the first call already. *)
Theorem token_cache_misses_documented_credentials_and_zero_lifetime :
  (forall (env : Env) (axios : TokenRequest -> Reply) (now : Z) (schemeName : string)
          (scheme : SecurityScheme) (w : World),
      isSet env clientIdVar = false \/ isSet env clientSecretVar = false ->
      acquireOAuth2Token env axios now schemeName scheme w = (None, w)) /\
  (forall schemeName : string,
      sanitizedName schemeName <> "SCHEMENAME" ->
      getEnvVarName schemeName OAUTH_CLIENT_ID <> clientIdVar /\
      getEnvVarName schemeName OAUTH_CLIENT_SECRET <> clientSecretVar) /\
  (isSet Petstore.documentedEnv (getEnvVarName "petstore_auth" OAUTH_CLIENT_ID) = true /\
   isSet Petstore.documentedEnv (getEnvVarName "petstore_auth" OAUTH_CLIENT_SECRET) = true /\
   is_Some (tokenUrlOf Petstore.oauthScheme) /\
   schemeAvailable Petstore.documentedEnv Petstore.securitySchemes "petstore_auth" = true /\
   forall (axios axios' : TokenRequest -> Reply) (now now' : Z) (w : World),
     let first :=
       acquireOAuth2Token Petstore.documentedEnv axios now "petstore_auth"
         Petstore.oauthScheme w in
     first = (None, w) /\
     acquireOAuth2Token Petstore.documentedEnv axios' now' "petstore_auth"
       Petstore.oauthScheme first.2 = (None, w)) /\
  (forall (env : Env) (axios : TokenRequest -> Reply) (now : Z) (schemeName : string)
          (scheme : SecurityScheme) (w : World) (clientId clientSecret url tok : string),
      env !! clientIdVar = Some clientId -> clientId <> "" ->
      env !! clientSecretVar = Some clientSecret -> clientSecret <> "" ->
      tokenUrlOf scheme = Some url ->
      default ∅ (tokenCache w) !! cacheKey schemeName clientId = None ->
      axios (tokenRequest env url clientId clientSecret)
        = Response (Some {| access_token := Some tok; expires_in := Some 0%Z |}) ->
      tok <> "" ->
      let first := acquireOAuth2Token env axios now schemeName scheme w in
      first.1 = Some tok /\
      tokenCache first.2
        = Some (<[cacheKey schemeName clientId :=
                    {| token := tok; expiresAt := now + 3540000 |}]>
                  (default ∅ (tokenCache w))) /\
      (now + 0 * 1000 - 60000 < now)%Z /\
      (forall (axios' : TokenRequest -> Reply) (now' : Z),
          (now <= now' < now + 3540000)%Z ->
          acquireOAuth2Token env axios' now' schemeName scheme first.2
            = (Some tok, first.2))) /\
  (let first :=
     acquireOAuth2Token Petstore.placeholderEnv (Petstore.endpoint (Some 0%Z)) 1000
       "petstore_auth" Petstore.oauthScheme Petstore.freshWorld in
   first.1 = Some "T1" /\
   (tokenCache first.2 ≫= fun cache => cache !! cacheKey "petstore_auth" "my-client")
     = Some {| token := "T1"; expiresAt := 3541000 |} /\
   List.length (sent first.2) = 1 /\
   forall axios' : TokenRequest -> Reply,
     acquireOAuth2Token Petstore.placeholderEnv axios' 2000 "petstore_auth"
       Petstore.oauthScheme first.2 = (Some "T1", first.2)).
Proof.
  split; [exact acquisition_without_placeholder_credentials|].
  split; [|split; [|split]].
  - intros schemeName Hname. unfold clientIdVar, clientSecretVar, getEnvVarName.
    split; intros E; apply Hname;
      by apply (inj (String.app _)), (inj (String.app _)) in E.
  - do 2 (split; [by vm_compute|]). split; [vm_compute; by eexists|].
    split; [by vm_compute|].
    intros axios axios' now now' w.
    assert (Hnone : forall a n,
               acquireOAuth2Token Petstore.documentedEnv a n "petstore_auth"
                 Petstore.oauthScheme w = (None, w))
      by (intros a n; apply acquisition_without_placeholder_credentials; by left).
    cbv zeta. by rewrite !Hnone.
  - intros env axios now schemeName scheme w clientId clientSecret url tok
      Hid Hidne Hsecret Hsecretne Hurl Hfresh Hreply Htok.
    destruct (placeholder_credentials_reach_the_cache env axios now schemeName scheme w
                clientId clientSecret url tok (Some 0%Z)
                Hid Hidne Hsecret Hsecretne Hurl Hfresh Hreply Htok)
      as (Hfirst & _ & Hcache & Hzero & _ & Hbefore & _).
    cbv zeta in *. split; [done|].
    rewrite <- (Hzero (or_intror eq_refl)). split; [done|]. split; [lia|].
    intros axios' now' [_ Hlt]. by apply Hbefore.
  - cbv zeta. do 3 (split; [by vm_compute|]). intros axios'. by vm_compute.
Qed.

End Acquisition.

(** ** More on tool names *)
Section MoreOnNames.
Import JsString ExtractTools Operations Charset.

Lemma app_cons (c : ascii) (a b : string) : String c a +:+ b = String c (a +:+ b).
Proof. reflexivity. Qed.

Lemma allChars_app (p : ascii -> bool) (a b : string) :
  allChars p (a +:+ b) = allChars p a && allChars p b.
Proof.
  induction a as [|c a IH]; [done|].
  rewrite app_cons. cbn [allChars]. by rewrite IH, andb_assoc.
Qed.

Lemma allChars_map (p : ascii -> bool) (f : ascii -> ascii) (s : string) :
  (forall c, p (f c) = true) -> allChars p (JsString.map f s) = true.
Proof. intros Hp. induction s as [|c s IH]; [done|]. cbn. by rewrite Hp, IH. Qed.

Lemma allChars_In (p : ascii -> bool) (s : string) :
  allChars p s = true <-> forall c, JsString.In c s -> p c = true.
Proof.
  induction s as [|d s IH]; cbn; [naive_solver|].
  rewrite andb_true_iff, IH. naive_solver.
Qed.

Lemma map_length (f : ascii -> ascii) (s : string) :
  String.length (JsString.map f s) = String.length s.
Proof. induction s as [|c s IH]; cbn; [done|by rewrite IH]. Qed.

Lemma sanitizeChar_isToolNameChar (c : ascii) :
  isToolNameChar (sanitizeChar c) = true.
Proof. destruct c as [[] [] [] [] [] [] [] []]; reflexivity. Qed.

Lemma sanitizeName_allChars (s : string) :
  allChars isToolNameChar (sanitizeName s) = true.
Proof. rewrite sanitizeName_map. apply allChars_map, sanitizeChar_isToolNameChar. Qed.

Lemma sanitizeName_length (s : string) :
  String.length (sanitizeName s) = String.length s.
Proof. rewrite sanitizeName_map. apply map_length. Qed.

Lemma pretty_N_go_digits (x : N) (s : string) :
  allChars isDigit s = true -> allChars isDigit (pretty_N_go x s) = true.
Proof.
  revert s. induction (N.lt_wf_0 x) as [x _ IH]; intros s Hs.
  assert (x = 0 \/ 0 < x)%N as [->|Hpos] by lia; [by rewrite pretty_N_go_0|].
  rewrite pretty_N_go_step by done. apply IH; [by apply N.div_lt|].
  cbn [allChars]. rewrite Hs, andb_true_r.
  unfold pretty_N_char. by repeat case_match.
Qed.

(** The decimal numeral of a counter has digits only. *)
Lemma pretty_nat_digits (k : nat) : allChars isDigit (pretty k) = true.
Proof.
  unfold pretty, pretty_nat, pretty, pretty_N. case_decide; [done|].
  by apply pretty_N_go_digits.
Qed.

Lemma isDigit_isToolNameChar (c : ascii) : isDigit c = true -> isToolNameChar c = true.
Proof. unfold isToolNameChar. intros ->. by rewrite orb_true_r. Qed.

Lemma suffixed_allChars (baseName : string) (k : nat) :
  allChars isToolNameChar baseName = true ->
  allChars isToolNameChar (suffixed baseName k) = true.
Proof.
  intros Hbase. unfold suffixed. rewrite !allChars_app, Hbase. cbn.
  apply allChars_In. intros c Hc. apply isDigit_isToolNameChar.
  by apply (proj1 (allChars_In isDigit (pretty k)) (pretty_nat_digits k)).
Qed.

(** Every tool name can be used in the Model Context Protocol: the name
    and the [operationId] of each tool are not empty and are made of the
    characters [a-z], [0-9], [_] and [-] only, the collision suffix
    included, whatever identifier the operation declares and whatever the
    path is. *)
Theorem tool_names_are_mcp_compatible (fuel : nat) (h : Heap) (api : Document)
    (tools : list McpToolDefinition) :
  extractToolsFromApi fuel h api = Some tools ->
  Forall (fun tool =>
            name tool <> "" /\ operationId tool <> "" /\
            allChars isToolNameChar (name tool) = true /\
            allChars isToolNameChar (operationId tool) = true)
         tools.
Proof.
  intros Hrun%extractToolsFromApi_Run.
  assert (H2 : Forall2 (fun (_ : Entry) tool =>
            name tool <> "" /\ operationId tool <> "" /\
            allChars isToolNameChar (name tool) = true /\
            allChars isToolNameChar (operationId tool) = true)
            (operationsOf api) tools).
  { eapply Run_Forall2; [|exact Hrun].
    intros usedNames [[path m] operation] tool (Hid & Huniq & _). cbn [fst snd] in Hid.
    assert (Hne : operationId tool <> "").
    { pose proof (declaredName_nonempty path m operation) as Hd.
      pose proof (sanitizeName_length (declaredName path m operation)) as Hlen.
      rewrite <- Hid in Hlen. destruct (operationId tool); [|done].
      by destruct (declaredName path m operation). }
    assert (Hchars : allChars isToolNameChar (operationId tool) = true)
      by (rewrite Hid; apply sanitizeName_allChars).
    apply uniqueName_spec in Huniq as [_ [[-> _]|(_ & k & _ & -> & _)]]; [done|].
    split; [|split; [done|split; [by apply suffixed_allChars|done]]].
    unfold suffixed. by apply app_nonempty_l. }
  clear Hrun. induction H2; constructor; auto.
Qed.

Lemma tool_names_are_mcp_compatible_witness :
  extractToolsFromApi 3 Petstore.heap Petstore.api = Some Petstore.tools /\
  Forall (fun tool =>
            name tool <> "" /\ operationId tool <> "" /\
            allChars isToolNameChar (name tool) = true /\
            allChars isToolNameChar (operationId tool) = true)
         Petstore.tools.
Proof.
  split; [by vm_compute|].
  apply (tool_names_are_mcp_compatible 3 Petstore.heap Petstore.api). by vm_compute.
Defined.

(** The naming loop is first-fit. The tool of an operation is named by the
    base name of the operation when no earlier tool has that name; else by
    the base name with the suffix [_k], [k] the least counter from 1 on for
    which no earlier tool has the suffixed name. *)
Theorem naming_is_first_fit (fuel : nat) (h : Heap) (api : Document)
    (tools : list McpToolDefinition) (before : list Entry) (entry : Entry)
    (after : list Entry) :
  extractToolsFromApi fuel h api = Some tools ->
  operationsOf api = before ++ entry :: after ->
  exists toolsBefore tool toolsAfter,
    tools = toolsBefore ++ tool :: toolsAfter /\
    List.length toolsBefore = List.length before /\
    (name tool ∉ name <$> toolsBefore) /\
    ((name tool = baseNameOf entry /\ (baseNameOf entry ∉ name <$> toolsBefore)) \/
     (baseNameOf entry ∈ name <$> toolsBefore /\
      exists k, 1 <= k /\ name tool = suffixed (baseNameOf entry) k /\
                forall j, 1 <= j < k ->
                          suffixed (baseNameOf entry) j ∈ name <$> toolsBefore)).
Proof.
  intros Hrun%extractToolsFromApi_Run Hops. rewrite Hops in Hrun.
  apply Run_app in Hrun as (toolsBefore & rest & -> & Hlen & _ & Hrun).
  inversion Hrun as [|? ? ? tool toolsAfter Hmade _]; subst.
  exists toolsBefore, tool, toolsAfter. split; [done|]. split; [done|].
  destruct Hmade as (Hid & Huniq & _). fold (baseNameOf entry) in Hid.
  rewrite Hid in Huniq.
  assert (Hused : forall n, n ∈ namesOf toolsBefore ∪ (∅ : gset string) <->
                            n ∈ name <$> toolsBefore).
  { intros n. unfold namesOf. rewrite elem_of_union, elem_of_list_to_set. set_solver. }
  apply uniqueName_spec in Huniq as [Hfresh Hcases].
  split; [by rewrite <- Hused|].
  destruct Hcases as [[-> Hfree]|(Hbase & k & Hk & -> & Hbelow)].
  - left. split; [done|]. by rewrite <- Hused.
  - right. split; [by rewrite <- Hused|]. exists k. split; [done|]. split; [done|].
    intros j Hj. rewrite <- Hused. by apply Hbelow.
Qed.

Lemma naming_is_first_fit_witness :
  exists toolsBefore tool toolsAfter,
    Petstore.tools = toolsBefore ++ tool :: toolsAfter /\
    List.length toolsBefore
      = List.length [("/pets", GET, Petstore.listPets); ("/pets", POST, Petstore.addPet)] /\
    (name tool ∉ name <$> toolsBefore) /\
    ((name tool = baseNameOf ("/pets/{petId}", GET, Petstore.listPetsAgain) /\
      (baseNameOf ("/pets/{petId}", GET, Petstore.listPetsAgain) ∉ name <$> toolsBefore)) \/
     (baseNameOf ("/pets/{petId}", GET, Petstore.listPetsAgain) ∈ name <$> toolsBefore /\
      exists k, 1 <= k /\
                name tool = suffixed (baseNameOf ("/pets/{petId}", GET, Petstore.listPetsAgain)) k /\
                forall j, 1 <= j < k ->
                          suffixed (baseNameOf ("/pets/{petId}", GET, Petstore.listPetsAgain)) j
                            ∈ name <$> toolsBefore)).
Proof.
  apply (naming_is_first_fit 3 Petstore.heap Petstore.api Petstore.tools
           [("/pets", GET, Petstore.listPets); ("/pets", POST, Petstore.addPet)]
           ("/pets/{petId}", GET, Petstore.listPetsAgain) []).
  - by vm_compute.
  - reflexivity.
Defined.

End MoreOnNames.

(** ** More on the tools and their input schemas *)
Section MoreOnTools.
Import JsString ExtractTools Operations SchemaTranslator.

(** What holds of the tool pushed by each pass of the loop body holds of
    the tools of an extraction, operation by operation. *)
Lemma extractToolsFromApi_Forall2 fuel h api tools (P : Entry -> McpToolDefinition -> Prop) :
  (forall st entry st',
      processOperation fuel h (default [] (api_security api)) st entry = Some st' ->
      exists tool, st'.1 = st.1 ++ [tool] /\ P entry tool) ->
  extractToolsFromApi fuel h api = Some tools ->
  Forall2 P (operationsOf api) tools.
Proof.
  intros HP. rewrite extractToolsFromApi_flat.
  assert (Hfold : forall entries st st',
             foldlM (processOperation fuel h (default [] (api_security api))) st entries
               = Some st' ->
             exists new, st'.1 = st.1 ++ new /\ Forall2 P entries new).
  { induction entries as [|entry entries IH]; intros st st'; cbn [foldlM].
    - intros [= <-]. exists []. by rewrite app_nil_r.
    - destruct (processOperation _ _ _ st entry) as [st1|] eqn:Hstep; [|done].
      apply HP in Hstep as (tool & Hst1 & Hp).
      intros (new & -> & Hnew)%IH. exists (tool :: new).
      rewrite Hst1, <- app_assoc. split; [done|]. by constructor. }
  destruct (foldlM _ _ _) as [st'|] eqn:Hrun; [|done].
  intros [= <-]. by apply Hfold in Hrun as (new & -> & Hnew).
Qed.

Lemma processOperation_description fuel h globalSecurity st entry st' :
  processOperation fuel h globalSecurity st entry = Some st' ->
  exists tool,
    st'.1 = st.1 ++ [tool] /\
    description tool =
      orDefault (orElse (op_description entry.2) (op_summary entry.2))
        ("Executes " +:+ toUpperCase (methodName entry.1.2) +:+ " " +:+ entry.1.1).
Proof.
  destruct st as [tools usedNames], entry as [[path m] operation].
  unfold processOperation.
  pose proof (declaredName_nonempty path m operation) as Hne.
  destruct (declaredName path m operation) as [|c r]; [done|].
  destruct (uniqueName _ _) as [finalToolName|]; [|done].
  destruct (generateInputSchemaAndDetails _ _ _) as [[[inputSchema parameters] ct]|]; [|done].
  intros [= <-]. eexists. split; reflexivity.
Qed.

(** Every tool has a description, and never an empty one: that of the
    operation when it has one that is not empty, else its summary when that
    is not empty, else the sentence made of the method in upper case and
    the path. *)
Theorem description_is_never_empty (fuel : nat) (h : Heap) (api : Document)
    (tools : list McpToolDefinition) :
  extractToolsFromApi fuel h api = Some tools ->
  Forall2
    (fun (entry : Entry) (tool : McpToolDefinition) =>
       description tool <> "" /\
       (forall d, op_description entry.2 = Some d -> d <> "" -> description tool = d) /\
       (forall s, truthy (op_description entry.2) = false ->
                  op_summary entry.2 = Some s -> s <> "" -> description tool = s) /\
       (truthy (op_description entry.2) = false ->
        truthy (op_summary entry.2) = false ->
        description tool
          = "Executes " +:+ toUpperCase (methodName entry.1.2) +:+ " " +:+ entry.1.1))
    (operationsOf api) tools.
Proof.
  apply extractToolsFromApi_Forall2. intros st entry st' Hstep.
  apply processOperation_description in Hstep as (tool & Hst' & Hdescription).
  exists tool. split; [done|]. rewrite Hdescription. clear.
  destruct entry as [[path m] operation]. cbn [fst snd].
  split; [by apply orDefault_nonempty|].
  unfold orElse.
  destruct (op_description operation) as [[|c r]|], (op_summary operation) as [[|c' r']|];
    cbn; repeat split; intros; by simplify_eq.
Qed.

Lemma description_is_never_empty_witness :
  extractToolsFromApi 3 Petstore.heap Petstore.api = Some Petstore.tools /\
  Forall2
    (fun (entry : Entry) (tool : McpToolDefinition) =>
       description tool <> "" /\
       (forall d, op_description entry.2 = Some d -> d <> "" -> description tool = d) /\
       (forall s, truthy (op_description entry.2) = false ->
                  op_summary entry.2 = Some s -> s <> "" -> description tool = s) /\
       (truthy (op_description entry.2) = false ->
        truthy (op_summary entry.2) = false ->
        description tool
          = "Executes " +:+ toUpperCase (methodName entry.1.2) +:+ " " +:+ entry.1.1))
    (operationsOf Petstore.api) Petstore.tools.
Proof.
  split; [by vm_compute|].
  apply (description_is_never_empty 3 Petstore.heap Petstore.api). by vm_compute.
Defined.

Lemma arrayIndex_lt_ne (k key : string) (m n : N) :
  arrayIndex k = Some m -> arrayIndex key = Some n -> (m <? n)%N = true -> k <> key.
Proof.
  intros Hk Hkey Hlt ->. rewrite Hk in Hkey. injection Hkey as ->.
  by rewrite N.ltb_irrefl in Hlt.
Qed.

Lemma objGet_objInsertIndex {A : Type} (n : N) (key : string) (value : A)
    (obj : list (string * A)) :
  arrayIndex key = Some n ->
  objGet key (objInsertIndex n key value obj) = Some value.
Proof.
  intros Hkey. induction obj as [|[k v] obj IH]; cbn.
  - by rewrite String.eqb_refl.
  - destruct (arrayIndex k) as [m|] eqn:Hk; [|cbn; by rewrite String.eqb_refl].
    destruct (m <? n)%N eqn:Hlt; [|cbn; by rewrite String.eqb_refl].
    cbn. by rewrite (proj2 (String.eqb_neq _ _) (arrayIndex_lt_ne _ _ _ _ Hk Hkey Hlt)).
Qed.

Lemma objGet_objInsertIndex_ne {A : Type} (n : N) (key key' : string) (value : A)
    (obj : list (string * A)) :
  key <> key' -> objGet key' (objInsertIndex n key value obj) = objGet key' obj.
Proof.
  intros Hne. pose proof (proj2 (String.eqb_neq _ _) Hne) as E.
  induction obj as [|[k v] obj IH]; cbn; [by rewrite E|].
  destruct (arrayIndex k) as [m|]; [|cbn; by rewrite E].
  destruct (m <? n)%N; cbn; [by rewrite IH|by rewrite E].
Qed.

Lemma objGet_objReplace {A : Type} (key : string) (value : A) (obj : list (string * A)) :
  objHas key obj = true -> objGet key (objReplace key value obj) = Some value.
Proof.
  unfold objHas. induction obj as [|[k v] obj IH]; cbn; [done|].
  destruct (String.eqb k key) eqn:E; cbn; by rewrite E.
Qed.

Lemma objGet_objReplace_ne {A : Type} (key key' : string) (value : A)
    (obj : list (string * A)) :
  key <> key' -> objGet key' (objReplace key value obj) = objGet key' obj.
Proof.
  intros Hne. induction obj as [|[k v] obj IH]; cbn; [done|].
  destruct (String.eqb_spec k key) as [->|Hk]; cbn.
  - by rewrite (proj2 (String.eqb_neq _ _) Hne).
  - by rewrite IH.
Qed.

Lemma objGet_app {A : Type} (key key' : string) (value : A) (obj : list (string * A)) :
  objGet key' (obj ++ [(key, value)])
    = match objGet key' obj with
      | Some v => Some v
      | None => if String.eqb key key' then Some value else None
      end.
Proof.
  induction obj as [|[k v] obj IH]; cbn; [done|]. by destruct (String.eqb k key').
Qed.

Lemma objGet_None {A : Type} (key : string) (obj : list (string * A)) :
  objHas key obj = false -> objGet key obj = None.
Proof.
  unfold objHas. induction obj as [|[k v] obj IH]; cbn; [done|].
  by destruct (String.eqb k key).
Qed.

(** Reading back what [obj[key] = value] has set, for a key other than
    [__proto__]. *)
Lemma objGet_objSet {A : Type} (key : string) (value : A) (obj : list (string * A)) :
  key <> "__proto__" -> objGet key (objSet key value obj) = Some value.
Proof.
  intros Hproto. unfold objSet. rewrite (proj2 (String.eqb_neq _ _) Hproto).
  destruct (objHas key obj) eqn:Hhas; [by apply objGet_objReplace|].
  destruct (arrayIndex key) as [n|] eqn:Hindex; [by apply objGet_objInsertIndex|].
  by rewrite objGet_app, (objGet_None _ _ Hhas), String.eqb_refl.
Qed.

Lemma objGet_objSet_ne {A : Type} (key key' : string) (value : A) (obj : list (string * A)) :
  key <> key' -> objGet key' (objSet key value obj) = objGet key' obj.
Proof.
  intros Hne. unfold objSet. destruct (String.eqb key "__proto__"); [done|].
  destruct (objHas key obj); [by apply objGet_objReplace_ne|].
  destruct (arrayIndex key) as [n|]; [by apply objGet_objInsertIndex_ne|].
  rewrite objGet_app, (proj2 (String.eqb_neq _ _) Hne). by destruct (objGet key' obj).
Qed.



(** The schema the request body gets when no JSON schema is declared. *)
Lemma addRequestBody_cases fuel h properties required body properties' required' contentType :
  addRequestBody fuel h (properties, required) body
    = Some (properties', required', contentType) ->
  (contentType = None /\ properties' = properties /\ required' = required /\
   (forall rb, body = Some rb ->
               (rb_content rb ≫= objGet "application/json") ≫= mt_schema = None /\
               rb_content rb ≫= head = None)) \/
  (exists rb c schema,
      body = Some rb /\ contentType = Some c /\
      properties' = objSet "requestBody" schema properties /\
      required' = (if rb_required rb then required ++ ["requestBody"] else required) /\
      ((c = "application/json" /\
        is_Some ((rb_content rb ≫= objGet "application/json") ≫= mt_schema)) \/
       ((rb_content rb ≫= objGet "application/json") ≫= mt_schema = None /\
        (exists mediaType, rb_content rb ≫= head = Some (c, mediaType)) /\
        Json.type schema = Some (TName "string")))).
Proof.
  unfold addRequestBody. destruct body as [rb|].
  2:{ intros [= <- <- <-]. left. repeat split; done. }
  destruct (_ ≫= mt_schema) as [s|] eqn:Hjson.
  - destruct (mapOpenApiSchemaToJsonSchema fuel h s) as [bodySchema|]; [|done].
    intros [= <- <- <-]. right. eexists rb, _, _.
    repeat (split; [reflexivity|]). left. by split.
  - destruct (_ ≫= head) as [[c mediaType]|] eqn:Hfirst.
    + intros [= <- <- <-]. right. eexists rb, _, _.
      repeat (split; [reflexivity|]). right. split; [done|]. split; [by eexists|done].
    + intros [= <- <- <-]. left. do 3 (split; [done|]). intros ? [= <-]. by split.
Qed.



(** A parameter named [__proto__] that is declared required: its name is
    in [required], and the schema has no property of that name. *)
Lemma required_proto_parameter_has_no_property :
  List.map (fun tool => (requiredOf (inputSchema tool), Json.properties (inputSchema tool)))
    Samples.protoParameterTools
  = [(Some ["__proto__"], Some [])].
Proof. reflexivity. Qed.

(** The request body of an operation. A tool has a content type exactly
    when its operation declares a body with a usable media type, and then
    its input schema has the property [requestBody], required when the body
    is: [application/json] is the content type whenever the body offers it
    with a schema, whatever the order of the media types; otherwise the
    first media type declared is, and the body is a string. *)
Theorem request_body_content_type (fuel : nat) (h : Heap) (api : Document)
    (tools : list McpToolDefinition) :
  extractToolsFromApi fuel h api = Some tools ->
  Forall2
    (fun (entry : Entry) (tool : McpToolDefinition) =>
       (op_requestBody entry.2 = None -> requestBodyContentType tool = None) /\
       (forall rb, op_requestBody entry.2 = Some rb ->
                   is_Some ((rb_content rb ≫= objGet "application/json") ≫= mt_schema) ->
                   requestBodyContentType tool = Some "application/json") /\
       (forall rb mediaType c,
           op_requestBody entry.2 = Some rb ->
           (rb_content rb ≫= objGet "application/json") ≫= mt_schema = None ->
           rb_content rb ≫= head = Some (c, mediaType) ->
           requestBodyContentType tool = Some c) /\
       (forall c, requestBodyContentType tool = Some c ->
          exists rb properties schema,
            op_requestBody entry.2 = Some rb /\
            Json.properties (inputSchema tool) = Some properties /\
            objGet "requestBody" properties = Some schema /\
            (is_Some ((rb_content rb ≫= objGet "application/json") ≫= mt_schema) \/
             Json.type schema = Some (TName "string")) /\
            (rb_required rb = true ->
             "requestBody" ∈ default [] (requiredOf (inputSchema tool)))))
    (operationsOf api) tools.
Proof.
  intros Hrun%extractToolsFromApi_Run.
  eapply Run_Forall2; [|exact Hrun].
  intros usedNames entry tool (_ & _ & Hgen & _).
  unfold generateInputSchemaAndDetails in Hgen.
  destruct (foldlM _ _ _) as [[properties1 required1]|] eqn:Hparams; [|done].
  destruct (addRequestBody _ _ _ _) as [[[properties required] ct]|] eqn:Hbody; [|done].
  injection Hgen as <- _ <-.
  apply addRequestBody_cases in Hbody
    as [(-> & _ & _ & Hnone)|(rb & c & schema & Hrb & -> & -> & -> & Hcases)].
  - split; [done|]. split.
    { intros rb Hrb [s Hs]. destruct (Hnone rb Hrb) as [Hjson _]. by rewrite Hjson in Hs. }
    split; [|done].
    intros rb mediaType c Hrb Hjson Hfirst. destruct (Hnone rb Hrb) as [_ Hhead].
    by rewrite Hhead in Hfirst.
  - rewrite Hrb. split; [done|]. split.
    { intros ? [= <-] [s Hs]. destruct Hcases as [[-> _]|(Hnone & _)]; [done|].
      by rewrite Hnone in Hs. }
    split.
    { intros ? mediaType c' [= <-] Hjson Hfirst.
      destruct Hcases as [[_ [s Hs]]|(_ & (mt & Hhead) & _)]; [by rewrite Hjson in Hs|].
      rewrite Hfirst in Hhead. by injection Hhead as ->. }
    intros ? [= <-]. exists rb, (objSet "requestBody" schema properties1), schema.
    split; [done|]. split; [done|]. split; [by apply objGet_objSet|]. split.
    { destruct Hcases as [[_ ?]|(_ & _ & ?)]; auto. }
    intros ->. cbn [requiredOf].
    destruct (required1 ++ ["requestBody"]) eqn:E; [by destruct required1|].
    cbn. rewrite <- E. apply elem_of_app. right. by apply list_elem_of_singleton.
Qed.

Lemma request_body_content_type_witness :
  extractToolsFromApi 3 Petstore.heap Petstore.api = Some Petstore.tools /\
  Forall2
    (fun (entry : Entry) (tool : McpToolDefinition) =>
       (op_requestBody entry.2 = None -> requestBodyContentType tool = None) /\
       (forall rb, op_requestBody entry.2 = Some rb ->
                   is_Some ((rb_content rb ≫= objGet "application/json") ≫= mt_schema) ->
                   requestBodyContentType tool = Some "application/json") /\
       (forall rb mediaType c,
           op_requestBody entry.2 = Some rb ->
           (rb_content rb ≫= objGet "application/json") ≫= mt_schema = None ->
           rb_content rb ≫= head = Some (c, mediaType) ->
           requestBodyContentType tool = Some c) /\
       (forall c, requestBodyContentType tool = Some c ->
          exists rb properties schema,
            op_requestBody entry.2 = Some rb /\
            Json.properties (inputSchema tool) = Some properties /\
            objGet "requestBody" properties = Some schema /\
            (is_Some ((rb_content rb ≫= objGet "application/json") ≫= mt_schema) \/
             Json.type schema = Some (TName "string")) /\
            (rb_required rb = true ->
             "requestBody" ∈ default [] (requiredOf (inputSchema tool)))))
    (operationsOf Petstore.api) Petstore.tools.
Proof.
  split; [by vm_compute|].
  apply (request_body_content_type 3 Petstore.heap Petstore.api). by vm_compute.
Defined.

End MoreOnTools.

(** ** More on schema translation *)
Section MoreOnTranslation.
Import SchemaTranslator SchemaGraph.

Lemma forEachM_all {A B : Type} (f : A -> option B) (l : list A) :
  (forall x, x ∈ l -> is_Some (f x)) -> is_Some (forEachM f l).
Proof.
  induction l as [|a l IH]; intros Hall; cbn; [done|].
  destruct (Hall a) as [y ->]; [set_solver|].
  destruct IH as [ys ->]; [|done]. intros x Hx. apply Hall. set_solver.
Qed.

(** A result does not depend on how much deeper the stack is. *)
Lemma mapOpenApiSchemaToJsonSchema_deeper fuel fuel' h l j :
  fuel <= fuel' ->
  mapOpenApiSchemaToJsonSchema fuel h l = Some j ->
  mapOpenApiSchemaToJsonSchema fuel' h l = Some j.
Proof.
  induction 1 as [|fuel' _ IH]; [done|].
  intros Hj. by apply mapOpenApiSchemaToJsonSchema_more_fuel, IH.
Qed.

(** The translation of a nullable schema is shallow. Null is folded into
    the type before the type is compared with ['object'] and ['array'], so
    the translator does not descend into a nullable object or array: its
    properties and items are carried over as they are in the source, their
    own [nullable] markers and [integer] types untouched. *)
Theorem nullable_schema_is_copied_shallowly (fuel : nat) (h : Heap) (l : loc) :
  s_ref (h l) = None ->
  s_nullable (h l) = true ->
  mapOpenApiSchemaToJsonSchema (S fuel) h l =
    Some (JObject (mappedType (h l))
            (fmap (M:=option) (fmap (M:=list) (prod_map id Json.ofSource)) (s_properties (h l)))
            (fmap (M:=option) Json.ofSource (s_items (h l)))
            (s_description (h l)) (s_required (h l))
            (deleteOpenApiOnly (s_rest (h l)))).
Proof.
  intros Href Hnullable. cbn [mapOpenApiSchemaToJsonSchema]. rewrite Href.
  assert (Hnot : forall t, mappedType (h l) <> Some (TName t) \/ t = "null").
  { intros t. unfold mappedType. rewrite Hnullable.
    destruct (integerToNumber (s_type (h l))) as [[n|ts]|]; cbn.
    - by left.
    - case_bool_decide; by left.
    - destruct (decide (t = "null")) as [->|]; [by right|]. left. congruence. }
  assert (Hprops : mapProperties (mapOpenApiSchemaToJsonSchema fuel h) (mappedType (h l))
                     (s_properties (h l))
                   = Some (fmap (M:=option) (fmap (M:=list) (prod_map id Json.ofSource))
                             (s_properties (h l)))).
  { unfold mapProperties. destruct (s_properties (h l)); [|done].
    rewrite bool_decide_eq_false_2; [done|]. by destruct (Hnot "object"). }
  assert (Hitems : mapItems (mapOpenApiSchemaToJsonSchema fuel h) (mappedType (h l))
                     (s_items (h l))
                   = Some (fmap (M:=option) Json.ofSource (s_items (h l)))).
  { unfold mapItems. destruct (s_items (h l)) as [[i|b|]|]; try done.
    rewrite bool_decide_eq_false_2; [done|]. by destruct (Hnot "array"). }
  by rewrite Hprops, Hitems.
Qed.

Lemma nullable_schema_is_copied_shallowly_witness :
  mapOpenApiSchemaToJsonSchema 1 Samples.nullableHeap 0 =
    Some (JObject (mappedType (Samples.nullableHeap 0))
            (fmap (M:=option) (fmap (M:=list) (prod_map id Json.ofSource))
               (s_properties (Samples.nullableHeap 0)))
            (fmap (M:=option) Json.ofSource (s_items (Samples.nullableHeap 0)))
            (s_description (Samples.nullableHeap 0)) (s_required (Samples.nullableHeap 0))
            (deleteOpenApiOnly (s_rest (Samples.nullableHeap 0)))).
Proof.
  apply (nullable_schema_is_copied_shallowly 0 Samples.nullableHeap 0); reflexivity.
Defined.

(** A call returns when its inner calls do. *)
Lemma mapOpenApiSchemaToJsonSchema_step fuel h l :
  (forall b, traverses h l b -> is_Some (mapOpenApiSchemaToJsonSchema fuel h b)) ->
  is_Some (mapOpenApiSchemaToJsonSchema (S fuel) h l).
Proof.
  intros Hchild. cbn [mapOpenApiSchemaToJsonSchema].
  destruct (s_ref (h l)) eqn:Href; [done|].
  assert (Hprops : is_Some (mapProperties (mapOpenApiSchemaToJsonSchema fuel h)
                              (mappedType (h l)) (s_properties (h l)))).
  { unfold mapProperties. destruct (s_properties (h l)) as [props|] eqn:Hp; [|done].
    case_bool_decide as Htype; [|done].
    destruct (forEachM_all (mapProperty (mapOpenApiSchemaToJsonSchema fuel h)) props)
      as [mapped ->]; [|done].
    intros [key [p|b|]] Hin; unfold mapProperty; cbn [fst snd]; [|done|done].
    destruct (Hchild p) as [j ->]; [|done].
    split; [done|]. left. split; [done|]. by exists props, key. }
  assert (Hitems : is_Some (mapItems (mapOpenApiSchemaToJsonSchema fuel h)
                              (mappedType (h l)) (s_items (h l)))).
  { unfold mapItems. destruct (s_items (h l)) as [[i|b|]|] eqn:Hi; try done.
    case_bool_decide as Htype; [|done].
    destruct (Hchild i) as [j ->]; [|done]. split; [done|]. by right. }
  by destruct Hprops as [? ->], Hitems as [? ->].
Qed.

(** Schemas without a cycle are translated, however deeply nested, on a
    stack deep enough: if the objects the translation of [l] comes to can
    be ranked so that the translator only ever calls itself on an object of
    smaller rank, then the translation of [l] returns on a stack of as many
    frames as the rank of [l], and one more. *)
Theorem ranked_schema_is_translated (h : Heap) (rank : loc -> nat) (l : loc) :
  (forall a b, rtc (traverses h) l a -> traverses h a b -> rank b < rank a) ->
  is_Some (mapOpenApiSchemaToJsonSchema (S (rank l)) h l).
Proof.
  remember (rank l) as n eqn:Hn.
  assert (Hle : rank l <= n) by lia. clear Hn.
  revert l Hle. induction n as [|n IH]; intros l Hle Hranked;
    apply mapOpenApiSchemaToJsonSchema_step; intros b Hb;
    pose proof (Hranked l b (rtc_refl _ _) Hb) as Hlt.
  - lia.
  - apply IH; [lia|]. intros a c Ha. apply Hranked. by eapply rtc_l.
Qed.

Lemma ranked_schema_is_translated_witness :
  (forall a b, rtc (traverses Samples.nestedHeap) 1 a ->
               traverses Samples.nestedHeap a b ->
               Samples.nestedRank b < Samples.nestedRank a) /\
  is_Some (mapOpenApiSchemaToJsonSchema (S (Samples.nestedRank 1)) Samples.nestedHeap 1).
Proof.
  assert (Hranked : forall a b, rtc (traverses Samples.nestedHeap) 1 a ->
               traverses Samples.nestedHeap a b ->
               Samples.nestedRank b < Samples.nestedRank a).
  { intros a b _ [_ Hedge].
    destruct a as [|[|[|a]]]; cbn in Hedge;
      destruct Hedge as [(Htype & props & key & Hprops & Hin)|(Htype & Hitems)];
      try discriminate.
    - injection Hprops as <-.
      apply elem_of_cons in Hin as [[= _ ->]|Hin]; [cbn; lia|].
      apply elem_of_cons in Hin as [[= _ ->]|Hin]; [cbn; lia|].
      by apply elem_of_nil in Hin.
    - injection Hitems as <-. cbn. lia. }
  split; [exact Hranked|].
  exact (ranked_schema_is_translated Samples.nestedHeap Samples.nestedRank 1 Hranked).
Defined.

End MoreOnTranslation.

(** ** URLs *)
Section Urls.
Import JsString Url.

Lemma normalizeUrl_trailing_slash (b : string) : normalizeUrl (b +:+ "/") = b.
Proof.
  induction b as [|c b IH]; [done|].
  rewrite app_cons. cbn [normalizeUrl]. rewrite IH.
  destruct b; [done|]. by rewrite app_cons.
Qed.

Lemma normalizeUrl_no_trailing_slash (b : string) :
  endsWithChar "/" b = false -> normalizeUrl b = b.
Proof.
  induction b as [|c b IH]; [done|]. cbn [endsWithChar normalizeUrl].
  destruct b as [|d b].
  - unfold eqb_char. rewrite Ascii.eqb_sym. by intros ->.
  - intros Hb. by rewrite IH.
Qed.

(** [joinUrl] puts exactly one slash between a base and a path, whether
    the base ends with a slash or not and whether the path starts with one
    or not: the four ways of writing them give the same URL. *)
Theorem joinUrl_joins_with_one_slash (baseUrl path : string) :
  baseUrl <> "" -> path <> "" ->
  endsWithChar "/" baseUrl = false -> startsWithChar "/" path = false ->
  joinUrl baseUrl path = baseUrl +:+ "/" +:+ path /\
  joinUrl (baseUrl +:+ "/") path = baseUrl +:+ "/" +:+ path /\
  joinUrl baseUrl ("/" +:+ path) = baseUrl +:+ "/" +:+ path /\
  joinUrl (baseUrl +:+ "/") ("/" +:+ path) = baseUrl +:+ "/" +:+ path.
Proof.
  intros Hbase Hpath Hend Hstart.
  assert (Hslash : forall b, b +:+ "/" <> "") by (by intros []).
  unfold joinUrl.
  destruct baseUrl as [|b0 b]; [done|]. destruct path as [|p0 p]; [done|].
  rewrite Hstart, (normalizeUrl_no_trailing_slash _ Hend).
  split; [done|].
  destruct (String b0 b +:+ "/") as [|x y] eqn:E; [by apply Hslash in E|]. rewrite <- E.
  rewrite normalizeUrl_trailing_slash. done.
Qed.

Lemma joinUrl_joins_with_one_slash_witness :
  joinUrl "https://api.example" "pets" = "https://api.example" +:+ "/" +:+ "pets" /\
  joinUrl ("https://api.example" +:+ "/") "pets" = "https://api.example" +:+ "/" +:+ "pets" /\
  joinUrl "https://api.example" ("/" +:+ "pets") = "https://api.example" +:+ "/" +:+ "pets" /\
  joinUrl ("https://api.example" +:+ "/") ("/" +:+ "pets")
    = "https://api.example" +:+ "/" +:+ "pets".
Proof.
  apply (joinUrl_joins_with_one_slash "https://api.example" "pets"); by vm_compute.
Defined.

Lemma scanPathParams_outside (pre rest : string) :
  Charset.allChars (fun c => negb (eqb_char c "{")) pre = true ->
  scanPathParams None (pre +:+ rest) = scanPathParams None rest.
Proof.
  induction pre as [|c pre IH]; [done|]. cbn [Charset.allChars].
  intros [Hc Hpre]%andb_true_iff. rewrite app_cons. cbn [scanPathParams].
  apply negb_true_iff in Hc. rewrite Hc. by apply IH.
Qed.

Lemma app_assoc_string (a b c : string) : (a +:+ b) +:+ c = a +:+ (b +:+ c).
Proof. induction a as [|x a IH]; [done|]. by rewrite !app_cons, IH. Qed.

Lemma scanPathParams_inside (acc name rest : string) :
  Charset.allChars (fun c => negb (eqb_char c "}")) name = true ->
  acc +:+ name <> "" ->
  scanPathParams (Some acc) (name +:+ "}" +:+ rest)
    = (acc +:+ name) :: scanPathParams None rest.
Proof.
  revert acc. induction name as [|c name IH]; intros acc Hname Hne.
  - rewrite app_empty_r in *. cbn. by destruct acc.
  - cbn [Charset.allChars] in Hname. apply andb_true_iff in Hname as [Hc Hname].
    apply negb_true_iff in Hc. rewrite app_cons. cbn [scanPathParams]. rewrite Hc.
    rewrite IH; [|done|].
    + by rewrite app_assoc_string.
    + rewrite app_assoc_string. by destruct acc.
Qed.

(** [extractPathParams] reads the placeholders of a template from left to
    right: a template with no opening brace has none, and where a
    placeholder [{name}] follows text with no opening brace, [name] is the
    first parameter and the others are those of the rest of the
    template. *)
Theorem extractPathParams_reads_placeholders (pre name post : string) :
  Charset.allChars (fun c => negb (eqb_char c "{")) pre = true ->
  Charset.allChars (fun c => negb (eqb_char c "}")) name = true ->
  name <> "" ->
  extractPathParams pre = [] /\
  extractPathParams (pre +:+ "{" +:+ name +:+ "}" +:+ post)
    = name :: extractPathParams post.
Proof.
  intros Hpre Hname Hne. unfold extractPathParams. split.
  - rewrite <- (app_empty_r pre). by rewrite scanPathParams_outside.
  - rewrite scanPathParams_outside by done.
    change (scanPathParams (Some "") (name +:+ "}" +:+ post)
            = name :: scanPathParams None post).
    by rewrite (scanPathParams_inside "" name post).
Qed.

Lemma extractPathParams_reads_placeholders_witness :
  extractPathParams "/users/" = [] /\
  extractPathParams ("/users/" +:+ "{" +:+ "userId" +:+ "}" +:+ "/posts/{postId}")
    = "userId" :: extractPathParams "/posts/{postId}".
Proof.
  apply (extractPathParams_reads_placeholders "/users/" "userId" "/posts/{postId}");
    by vm_compute.
Defined.

End Urls.

(** ** Helpers *)
Section HelperFacts.
Import JsString Helpers Charset.

Lemma isDigit_isIdentifierChar (c : ascii) : isDigit c = true -> isIdentifierChar c = true.
Proof. unfold isIdentifierChar. intros ->. by rewrite !orb_true_r. Qed.

Lemma identifierChar_not_digit_is_start (c : ascii) :
  isIdentifierChar c = true -> isDigit c = false -> isIdentifierStart c = true.
Proof.
  unfold isIdentifierChar, isIdentifierStart. intros Hc Hd. rewrite Hd in Hc.
  by rewrite orb_false_r in Hc.
Qed.

Lemma sanitized_identifier_chars (s : string) :
  allChars isIdentifierChar
    (JsString.map (fun c => if isIdentifierChar c then c else "_"%char) s) = true.
Proof. apply allChars_map. intros c. by destruct (isIdentifierChar c) eqn:E. Qed.

(** [toValidVariableName] makes a valid identifier of every string but the
    empty one. *)
Theorem toValidVariableName_is_valid (str : string) :
  str <> "" -> isValidIdentifier (toValidVariableName str) = true.
Proof.
  intros Hne. unfold toValidVariableName.
  pose proof (sanitized_identifier_chars str) as Hchars.
  destruct str as [|c r]; [done|]. cbn [JsString.map] in *.
  set (c' := if isIdentifierChar c then c else "_"%char) in *.
  cbn [allChars] in Hchars. apply andb_true_iff in Hchars as [Hc Hr].
  destruct (isDigit c') eqn:Hd.
  - change (isIdentifierStart "_"
            && allChars isIdentifierChar
                 (String c' (JsString.map
                               (fun c => if isIdentifierChar c then c else "_"%char) r))
            = true).
    cbn [allChars]. by rewrite Hc, Hr.
  - cbn [isValidIdentifier]. by rewrite (identifierChar_not_digit_is_start c' Hc Hd), Hr.
Qed.

Lemma toValidVariableName_is_valid_witness :
  isValidIdentifier (toValidVariableName "2nd pet-store.v1") = true.
Proof. apply (toValidVariableName_is_valid "2nd pet-store.v1"). discriminate. Defined.

Lemma map_id_on (p : ascii -> bool) (s : string) :
  allChars p s = true ->
  JsString.map (fun c => if p c then c else "_"%char) s = s.
Proof.
  induction s as [|c s IH]; [done|]. cbn.
  intros [-> Hs]%andb_true_iff. by rewrite IH.
Qed.

(** [toValidVariableName] leaves a valid identifier as it is. *)
Theorem toValidVariableName_keeps_identifiers (str : string) :
  isValidIdentifier str = true -> toValidVariableName str = str.
Proof.
  destruct str as [|c r]; [done|]. cbn [isValidIdentifier].
  intros [Hc Hr]%andb_true_iff. unfold toValidVariableName.
  assert (Hchar : isIdentifierChar c = true).
  { unfold isIdentifierStart in Hc. unfold isIdentifierChar.
    destruct (isLower c), (isUpper c), (isDigit c), (eqb_char c "_"), (eqb_char c "$"); done. }
  rewrite (map_id_on isIdentifierChar (String c r)) by (cbn; by rewrite Hchar, Hr).
  assert (Hd : isDigit c = false).
  { destruct c as [[] [] [] [] [] [] [] []]; cbv in Hc |- *; congruence. }
  by rewrite Hd.
Qed.

Lemma toValidVariableName_keeps_identifiers_witness :
  toValidVariableName "petStore_v1" = "petStore_v1".
Proof. apply (toValidVariableName_keeps_identifiers "petStore_v1"). reflexivity. Defined.

Lemma escapeBackticks_after_backslashes (s : string) :
  sanitizeForTemplate s =
  match s with
  | EmptyString => EmptyString
  | String c r =>
      if eqb_char c "\" then String "\" (String "\" (sanitizeForTemplate r))
      else if eqb_char c "`" then String "\" (String "`" (sanitizeForTemplate r))
      else String c (sanitizeForTemplate r)
  end.
Proof.
  unfold sanitizeForTemplate. destruct s as [|c r]; [done|]. cbn [escapeBackslashes].
  destruct (eqb_char c "\") eqn:Hb; cbn [escapeBackticks].
  - done.
  - by destruct (eqb_char c "`").
Qed.

Lemma sanitizeForTemplate_starts_with_brace (s : string) :
  startsWithChar "{" (sanitizeForTemplate s) = startsWithChar "{" s.
Proof.
  rewrite escapeBackticks_after_backslashes. destruct s as [|c r]; [done|].
  destruct c as [[] [] [] [] [] [] [] []]; reflexivity.
Qed.

(** No description ends the template literal it is written into: in what
    [sanitizeForTemplate] returns, read as the text of a template literal,
    every backtick is taken by a backslash. But the function does nothing
    about [${]: its result starts a substitution exactly when the string
    has [${] somewhere, a backslash before it or not. *)
Theorem sanitizeForTemplate_escapes_backticks_only (str : string) :
  endsLiteral (sanitizeForTemplate str) = false /\
  startsSubstitution (sanitizeForTemplate str) = hasDollarBrace str.
Proof.
  induction str as [|c r [IHends IHstarts]]; [done|].
  rewrite escapeBackticks_after_backslashes.
  destruct (eqb_char c "\") eqn:Hbackslash.
  { cbn. rewrite IHends, IHstarts.
    destruct c as [[] [] [] [] [] [] [] []]; try discriminate; done. }
  destruct (eqb_char c "`") eqn:Hbacktick.
  { cbn. rewrite IHends, IHstarts.
    destruct c as [[] [] [] [] [] [] [] []]; try discriminate; done. }
  cbn [endsLiteral startsSubstitution hasDollarBrace].
  rewrite Hbackslash, Hbacktick, IHends, IHstarts, sanitizeForTemplate_starts_with_brace.
  split; [done|]. by destruct (eqb_char c "$" && startsWithChar "{" r).
Qed.

End HelperFacts.

(** ** The programmatic interface *)
Section ProgrammaticInterface.
Import JsString ExtractTools Operations Charset Api.

Lemma filter_sublist {A : Type} (f : A -> bool) (l : list A) :
  sublist (List.filter f l) l.
Proof.
  induction l as [|x l IH]; cbn; [constructor|].
  destruct (f x); by constructor.
Qed.

Lemma filter_all {A : Type} (f : A -> bool) (l : list A) :
  (forall x, x ∈ l -> f x = true) -> List.filter f l = l.
Proof.
  induction l as [|x l IH]; intros Hall; cbn; [done|].
  rewrite (Hall x) by set_solver. f_equal. apply IH. intros y Hy. apply Hall. set_solver.
Qed.

Lemma filter_elem {A : Type} (f : A -> bool) (l : list A) (x : A) :
  x ∈ List.filter f l <-> x ∈ l /\ f x = true.
Proof. rewrite !list_elem_of_In. apply filter_In. Qed.

Lemma filterTools_sublist options allTools :
  sublist (filterTools options allTools) allTools.
Proof.
  unfold filterTools.
  destruct (opt_filterFn options) as [f|], (opt_excludeOperationIds options) as [[|id ids]|];
    cbv zeta; try reflexivity; try apply filter_sublist;
    (etrans; [apply filter_sublist|apply filter_sublist]).
Qed.

Lemma filterTools_elem options allTools tool :
  tool ∈ filterTools options allTools <->
  tool ∈ allTools /\
  (forall ids, opt_excludeOperationIds options = Some ids -> operationId tool ∉ ids) /\
  (forall f, opt_filterFn options = Some f -> f tool = true).
Proof.
  unfold filterTools.
  destruct (opt_filterFn options) as [f|], (opt_excludeOperationIds options) as [[|id ids]|];
    cbv zeta; rewrite ?filter_elem, ?negb_true_iff, ?bool_decide_eq_false, ?elem_of_list_to_set.
  - split.
    + intros [Hin Hf]. split; [done|]. split; [|by intros ? [= <-]].
      intros ? [= <-]. apply not_elem_of_nil.
    + intros (Hin & _ & Hf). split; [done|]. by apply Hf.
  - split.
    + intros [[Hin Hex] Hf]. split; [done|]. split; [|by intros ? [= <-]].
      by intros ? [= <-].
    + intros (Hin & Hex & Hf). split; [split; [done|by apply Hex]|by apply Hf].
  - split.
    + intros [Hin Hf]. split; [done|]. split; [done|]. by intros ? [= <-].
    + intros (Hin & _ & Hf). split; [done|]. by apply Hf.
  - split.
    + intros Hin. split; [done|]. split; [|done].
      intros ? [= <-]. apply not_elem_of_nil.
    + by intros (Hin & _).
  - split.
    + intros [Hin Hex]. split; [done|]. split; [|done]. by intros ? [= <-].
    + intros (Hin & Hex & _). split; [done|by apply Hex].
  - split; [by intros Hin|by intros (Hin & _)].
Qed.

(** What [getToolsFromOpenApi] returns: the tools of the extraction that
    pass the two filters, in the order of the extraction and still with
    pairwise distinct names, each with the same base URL. A tool passes
    when its [operationId] is not among the excluded ones and the filter
    function, if there is one, accepts it. *)
Theorem getToolsFromOpenApi_filters (fuel : nat) (h : Heap) (api : Document)
    (servers : option (list Url.ServerObject)) (options : GetToolsOptions)
    (result : list (McpToolDefinition * string)) :
  getToolsFromOpenApi fuel h api servers options = Some result ->
  exists allTools,
    extractToolsFromApi fuel h api = Some allTools /\
    sublist result.*1 allTools /\
    NoDup (name <$> result.*1) /\
    (forall tool baseUrl,
        (tool, baseUrl) ∈ result <->
        baseUrl = default "" (Url.determineBaseUrl servers (opt_baseUrl options)) /\
        tool ∈ allTools /\
        (forall ids, opt_excludeOperationIds options = Some ids ->
                     operationId tool ∉ ids) /\
        (forall f, opt_filterFn options = Some f -> f tool = true)).
Proof.
  unfold getToolsFromOpenApi.
  destruct (extractToolsFromApi fuel h api) as [allTools|] eqn:Hextract; [|done].
  intros [= <-]. exists allTools. split; [done|].
  rewrite <- list_fmap_compose.
  assert (Hfst : (fst ∘ (fun tool => (tool, default "" (Url.determineBaseUrl servers
                                                        (opt_baseUrl options)))))
                 <$> filterTools options allTools = filterTools options allTools).
  { clear. induction (filterTools options allTools) as [|x l IH]; [done|].
    cbn. by rewrite IH. }
  rewrite Hfst. split; [apply filterTools_sublist|]. split.
  - apply extractToolsFromApi_Run, Run_fresh in Hextract as [Hnodup _].
    eapply sublist_NoDup; [exact Hnodup|apply fmap_sublist, filterTools_sublist].
  - intros tool baseUrl. rewrite list_elem_of_fmap, <- filterTools_elem. split.
    + by intros (t & [= -> ->] & Hin).
    + intros [-> Hin]. by exists tool.
Qed.

Lemma getToolsFromOpenApi_filters_witness :
  exists allTools,
    extractToolsFromApi 3 Petstore.heap Petstore.api = Some allTools /\
    sublist (ApiSamples.keptTools).*1 allTools /\
    NoDup (name <$> (ApiSamples.keptTools).*1) /\
    (forall tool baseUrl,
        (tool, baseUrl) ∈ ApiSamples.keptTools <->
        baseUrl = default "" (Url.determineBaseUrl ApiSamples.servers
                                (opt_baseUrl ApiSamples.excludeListPets)) /\
        tool ∈ allTools /\
        (forall ids, opt_excludeOperationIds ApiSamples.excludeListPets = Some ids ->
                     operationId tool ∉ ids) /\
        (forall f, opt_filterFn ApiSamples.excludeListPets = Some f -> f tool = true)).
Proof.
  apply (getToolsFromOpenApi_filters 3 Petstore.heap Petstore.api ApiSamples.servers
           ApiSamples.excludeListPets ApiSamples.keptTools).
  by vm_compute.
Defined.

Lemma toolNameChar_not_upper_or_dot (c : ascii) :
  isToolNameChar c = true -> ~ (isUpper c = true \/ c = "."%char).
Proof. destruct c as [[] [] [] [] [] [] [] []]; vm_compute; intuition congruence. Qed.

(** The exclusion list is compared with the sanitized [operationId] of the
    tools. So an excluded identifier that has an upper-case letter or a
    dot, as the document declares it, excludes nothing: with such
    identifiers only, and no filter function, every tool of the extraction
    is returned. *)
Theorem exclusion_by_declared_identifier_excludes_nothing (fuel : nat) (h : Heap)
    (api : Document) (servers : option (list Url.ServerObject))
    (options : GetToolsOptions) (result : list (McpToolDefinition * string)) :
  getToolsFromOpenApi fuel h api servers options = Some result ->
  opt_filterFn options = None ->
  (forall ids id, opt_excludeOperationIds options = Some ids -> id ∈ ids ->
                  exists c, JsString.In c id /\ (isUpper c = true \/ c = "."%char)) ->
  extractToolsFromApi fuel h api = Some result.*1.
Proof.
  unfold getToolsFromOpenApi.
  destruct (extractToolsFromApi fuel h api) as [allTools|] eqn:Hextract; [|done].
  intros [= <-] Hfn Hids. f_equal.
  rewrite <- list_fmap_compose.
  assert (Hfst : forall l : list McpToolDefinition,
             (fst ∘ (fun tool => (tool, default "" (Url.determineBaseUrl servers
                                                      (opt_baseUrl options))))) <$> l = l).
  { induction l as [|x l IH]; [done|]. cbn. by rewrite IH. }
  rewrite Hfst. unfold filterTools. rewrite Hfn.
  destruct (opt_excludeOperationIds options) as [[|id0 ids0]|] eqn:Hexclude; [done| |done].
  symmetry. apply filter_all. intros tool Htool.
  apply negb_true_iff, bool_decide_eq_false. rewrite elem_of_list_to_set. intros Hin.
  destruct (Hids _ _ eq_refl Hin) as (c & Hc & Hbad).
  apply extractToolsFromApi_Run in Hextract.
  assert (Hchars : Forall2 (fun (_ : Entry) t => allChars isToolNameChar (operationId t) = true)
                           (operationsOf api) allTools).
  { eapply Run_Forall2; [|exact Hextract].
    intros usedNames entry t (Hid & _). rewrite Hid. apply sanitizeName_allChars. }
  assert (Hall : Forall (fun t => allChars isToolNameChar (operationId t) = true) allTools)
    by (clear -Hchars; induction Hchars; constructor; auto).
  rewrite Forall_forall in Hall. specialize (Hall tool Htool).
  apply (toolNameChar_not_upper_or_dot c); [|done].
  by apply (proj1 (allChars_In _ _) Hall).
Qed.

Lemma exclusion_by_declared_identifier_excludes_nothing_witness :
  extractToolsFromApi 3 Petstore.heap Petstore.api = Some (ApiSamples.allKept).*1.
Proof.
  apply (exclusion_by_declared_identifier_excludes_nothing 3 Petstore.heap Petstore.api
           ApiSamples.servers ApiSamples.excludeDeclared ApiSamples.allKept).
  - by vm_compute.
  - reflexivity.
  - intros ids id [= <-] Hin.
    apply elem_of_cons in Hin as [->|Hin]; [exists "P"%char; cbn; auto 10|].
    apply elem_of_cons in Hin as [->|Hin]; [exists "P"%char; cbn; auto 10|].
    by apply elem_of_nil in Hin.
Defined.

End ProgrammaticInterface.

(** ** Names of environment variables *)
Section EnvironmentNames.
Import JsString Security Charset Shapes.

Lemma envChar_isEnvNameChar (c : ascii) :
  isEnvNameChar (toUpperChar (if isAlphaNum c then c else "_"%char)) = true.
Proof. destruct c as [[] [] [] [] [] [] [] []]; reflexivity. Qed.

Lemma sanitizedName_allChars (s : string) :
  allChars isEnvNameChar (sanitizedName s) = true.
Proof.
  unfold sanitizedName, toUpperCase. rewrite map_map.
  apply (allChars_map isEnvNameChar (fun c => toUpperChar (if isAlphaNum c then c else "_"%char))).
  apply envChar_isEnvNameChar.
Qed.

Lemma sanitizedName_length (s : string) :
  String.length (sanitizedName s) = String.length s.
Proof. unfold sanitizedName, toUpperCase. by rewrite !map_length. Qed.

Lemma app_length (a b : string) :
  String.length (a +:+ b) = String.length a + String.length b.
Proof. induction a as [|c a IH]; [done|]. rewrite app_cons. cbn. by rewrite IH. Qed.

(** Whatever the name of the scheme, [getEnvVarName] gives a name an
    environment variable can have: it starts with an upper-case letter and
    has upper-case letters, digits and underscores only. It is as long as
    the kind, an underscore and the scheme name together. *)
Theorem getEnvVarName_is_a_variable_name (schemeName : string) (type : CredentialKind) :
  (exists c r, getEnvVarName schemeName type = String c r /\ isUpper c = true) /\
  allChars isEnvNameChar (getEnvVarName schemeName type) = true /\
  String.length (getEnvVarName schemeName type)
    = String.length (kindName type) + 1 + String.length schemeName.
Proof.
  unfold getEnvVarName. split; [|split].
  - destruct type; cbn [kindName]; eexists _, _; (split; [rewrite app_cons; reflexivity|done]).
  - rewrite !allChars_app, sanitizedName_allChars. by destruct type; vm_compute.
  - rewrite !app_length, sanitizedName_length. cbn. lia.
Qed.

Lemma kindName_prefix_inj (k k' : CredentialKind) (x y : string) :
  kindName k +:+ "_" +:+ x = kindName k' +:+ "_" +:+ y -> k = k' /\ x = y.
Proof.
  destruct k, k'; intros H; vm_compute in H;
    first [discriminate H | by (split; [reflexivity|congruence])].
Qed.

Lemma alphaNum_upper_is_no_underscore (c : ascii) :
  isAlphaNum c = true -> toUpperChar c <> "_"%char.
Proof. destruct c as [[] [] [] [] [] [] [] []]; vm_compute; congruence. Qed.

Lemma sanitizedChar_eq (c d : ascii) :
  toUpperChar (if isAlphaNum c then c else "_"%char)
    = toUpperChar (if isAlphaNum d then d else "_"%char) <->
  (isAlphaNum c = false /\ isAlphaNum d = false) \/
  (isAlphaNum c = true /\ isAlphaNum d = true /\ toUpperChar c = toUpperChar d).
Proof.
  destruct (isAlphaNum c) eqn:Hc, (isAlphaNum d) eqn:Hd.
  - naive_solver.
  - split; [|naive_solver]. intros E. by apply alphaNum_upper_is_no_underscore in E.
  - split; [|naive_solver]. intros E. symmetry in E.
    by apply alphaNum_upper_is_no_underscore in E.
  - naive_solver.
Qed.

Lemma sanitizedName_eq (a b : string) :
  sanitizedName a = sanitizedName b <-> sameUpToCaseAndPunctuation a b.
Proof.
  unfold sanitizedName, toUpperCase. rewrite !map_map. revert b.
  induction a as [|x a IH]; intros [|y b]; cbn [JsString.map sameUpToCaseAndPunctuation];
    [done|split; [done|tauto]|split; [done|tauto]|].
  rewrite <- IH, <- sanitizedChar_eq. split; [by intros [= -> ->]|by intros [-> ->]].
Qed.

(** Two credentials are read from the same environment variable exactly
    when they are of the same kind and the names of their schemes differ at
    most in the case of letters and in which characters other than letters
    and digits they have: the schemes [my-auth], [my_auth] and [My.Auth]
    share their variables. *)
Theorem environment_variables_coincide (a b : string) (k k' : CredentialKind) :
  getEnvVarName a k = getEnvVarName b k' <->
  k = k' /\ sameUpToCaseAndPunctuation a b.
Proof.
  unfold getEnvVarName. rewrite <- sanitizedName_eq. split.
  - apply kindName_prefix_inj.
  - by intros [-> ->].
Qed.

End EnvironmentNames.

(** ** What a call of [acquireOAuth2Token] leaves alone *)
Section AcquisitionFrame.
Import Security.

(** A call of [acquireOAuth2Token] sends at most one request, after those
    sent before. A call that returns no token leaves every entry of the
    cache as it was; any call leaves the entries of all other keys as they
    were; and a token that is returned is the one the cache then holds
    under the key of the scheme and the client id. *)
Theorem acquisition_touches_one_cache_entry (env : Env) (axios : TokenRequest -> Reply)
    (now : Z) (schemeName : string) (scheme : SecurityScheme) (w : World) :
  let result := acquireOAuth2Token env axios now schemeName scheme w in
  (exists new, sent result.2 = sent w ++ new /\ List.length new <= 1) /\
  (result.1 = None -> default ∅ (tokenCache result.2) = default ∅ (tokenCache w)) /\
  (forall key,
      (forall clientId, env !! clientIdVar = Some clientId ->
                        key <> cacheKey schemeName clientId) ->
      default ∅ (tokenCache result.2) !! key = default ∅ (tokenCache w) !! key) /\
  (forall tok, result.1 = Some tok ->
      exists clientId entry,
        env !! clientIdVar = Some clientId /\
        default ∅ (tokenCache result.2) !! cacheKey schemeName clientId = Some entry /\
        token entry = tok).
Proof.
  cbv zeta. unfold acquireOAuth2Token.
  assert (Hnil : exists new : list TokenRequest, sent w = sent w ++ new /\ List.length new <= 1)
    by (exists []; rewrite app_nil_r; split; [done|cbn; lia]).
  destruct (env !! clientIdVar) as [[|c1 r1]|] eqn:Hid;
    [by repeat split|..|by repeat split].
  destruct (env !! clientSecretVar) as [[|c2 r2]|] eqn:Hsecret;
    [by repeat split|..|by repeat split].
  cbv zeta.
  set (cache := default ∅ (tokenCache w)).
  set (key := cacheKey schemeName (String c1 r1)).
  assert (Hfetch :
    forall fetch : option string * World,
      fetch = match tokenUrlOf scheme with
              | None => (None, {| tokenCache := Some cache; sent := sent w |})
              | Some url =>
                  match axios (tokenRequest env url (String c1 r1) (String c2 r2)) with
                  | Response (Some {| access_token := Some (String _ _ as tok);
                                      expires_in := expires_in |}) =>
                      (Some tok,
                       {| tokenCache :=
                            Some (<[key := {| token := tok;
                                              expiresAt := now + expiresInOr3600 expires_in * 1000
                                                           - 60000 |}]> cache);
                          sent := sent w ++ [tokenRequest env url (String c1 r1) (String c2 r2)] |})
                  | _ => (None,
                          {| tokenCache := Some cache;
                             sent := sent w ++ [tokenRequest env url (String c1 r1)
                                                  (String c2 r2)] |})
                  end
              end ->
      (exists new, sent fetch.2 = sent w ++ new /\ List.length new <= 1) /\
      (fetch.1 = None -> default ∅ (tokenCache fetch.2) = cache) /\
      (forall key',
          (forall clientId, Some (String c1 r1) = Some clientId ->
                            key' <> cacheKey schemeName clientId) ->
          default ∅ (tokenCache fetch.2) !! key' = cache !! key') /\
      (forall tok, fetch.1 = Some tok ->
          exists clientId entry,
            Some (String c1 r1) = Some clientId /\
            default ∅ (tokenCache fetch.2) !! cacheKey schemeName clientId = Some entry /\
            token entry = tok)).
  { intros fetch ->.
    destruct (tokenUrlOf scheme) as [url|]; [|by repeat split].
    assert (Hone : exists new : list TokenRequest,
               sent w ++ [tokenRequest env url (String c1 r1) (String c2 r2)] = sent w ++ new /\
               List.length new <= 1) by (eexists; split; [done|cbn; lia]).
    destruct (axios _) as [|[[[[|t1 t2]|] e]|]]; cbn [fst snd tokenCache sent default from_option id];
      try by repeat split.
    split; [done|]. split; [done|]. split.
    - intros key' Hkey. apply lookup_insert_ne. intros E. by apply (Hkey _ eq_refl).
    - intros tok [= <-]. eexists _, _. split; [done|]. fold key.
      by rewrite lookup_insert_eq. }
  destruct (cache !! key) as [cachedToken|] eqn:Hcached; [|by apply Hfetch].
  destruct (now <? expiresAt cachedToken)%Z; [|by apply Hfetch].
  cbn [fst snd tokenCache sent default from_option id].
  split; [done|]. split; [done|]. split; [done|].
  intros tok [= <-]. by exists (String c1 r1), cachedToken.
Qed.

End AcquisitionFrame.

(** ** Generated operation identifiers *)
Section GeneratedIdentifiers.
Import JsString CodeGen Charset Shapes.

Lemma appendParts_prefix (parts : list string) (name : string) :
  exists suffix, appendParts parts name = name +:+ suffix.
Proof.
  revert name. induction parts as [|part rest IH]; intros name.
  - exists "". by rewrite app_empty_r.
  - cbn [appendParts]. cbv zeta.
    destruct (startsWithChar "{" part && endsWithChar "}" part).
    + destruct rest as [|next rest]; [|apply IH].
      destruct (IH (name +:+ "By" +:+ titleCase part)) as [s ->].
      eexists. by rewrite app_assoc_string.
    + destruct (IH (name +:+ titleCase part)) as [s ->].
      eexists. by rewrite app_assoc_string.
Qed.

Lemma capitalize_app (a b : string) :
  a <> "" -> capitalize (a +:+ b) = capitalize a +:+ b.
Proof. by destruct a. Qed.

Lemma map_nonempty (f : ascii -> ascii) (s : string) : s <> "" -> JsString.map f s <> "".
Proof. by destruct s. Qed.

(** A generated identifier is the method in lower case with its first
    letter in upper case, and then something: the parts of the path, or
    [Root] when they add nothing. *)
Theorem generated_identifier_starts_with_method (method path : string) :
  method <> "" ->
  exists rest,
    rest <> "" /\
    generateOperationId method path = capitalize (toLowerCase method) +:+ rest.
Proof.
  intros Hmethod. unfold generateOperationId. cbv zeta.
  assert (Hlower : toLowerCase method <> "") by by apply map_nonempty.
  destruct (appendParts_prefix (List.filter nonEmpty (split "/" path)) (toLowerCase method))
    as [suffix ->].
  destruct suffix as [|c suffix].
  - rewrite app_empty_r, String.eqb_refl. exists "Root". split; [done|].
    by apply capitalize_app.
  - exists (String c suffix). split; [done|].
    destruct (String.eqb_spec (toLowerCase method +:+ String c suffix) (toLowerCase method))
      as [E|_]; [|by apply capitalize_app].
    rewrite <- (app_empty_r (toLowerCase method)) in E at 2.
    by apply (inj (String.app _)) in E.
Qed.

Lemma generated_identifier_starts_with_method_witness :
  exists rest,
    rest <> "" /\
    generateOperationId "GET" "/users/{userId}/posts" = capitalize (toLowerCase "GET") +:+ rest.
Proof. by apply (generated_identifier_starts_with_method "GET" "/users/{userId}/posts"). Defined.

Lemma split_nonnil (sep : ascii) (s : string) : split sep s <> [].
Proof.
  induction s as [|c s IH]; cbn; [done|].
  destruct (eqb_char c sep); [done|]. by destruct (split sep s).
Qed.

Lemma split_app_no_separator (seg r : string) :
  allChars (fun c => negb (eqb_char c "/")) seg = true ->
  split "/" (seg +:+ r) =
  match split "/" r with
  | p :: ps => (seg +:+ p) :: ps
  | [] => []
  end.
Proof.
  induction seg as [|c seg IH]; intros Hseg.
  - change ("" +:+ r) with r. by destruct (split "/" r).
  - cbn [allChars] in Hseg. apply andb_true_iff in Hseg as [Hc Hseg].
    rewrite app_cons. cbn [split]. apply negb_true_iff in Hc. rewrite Hc, (IH Hseg).
    pose proof (split_nonnil "/" r). by destruct (split "/" r).
Qed.

Lemma split_pathOf (segments : list string) :
  forallb isSegment segments = true ->
  split "/" (pathOf segments) = "" :: segments.
Proof.
  induction segments as [|segment rest IH]; [done|].
  cbn [forallb]. intros [Hsegment Hrest]%andb_true_iff.
  apply andb_true_iff in Hsegment as [_ Hsegment].
  cbn [pathOf]. change ("/" +:+ segment +:+ pathOf rest)
    with (String "/" (segment +:+ pathOf rest)).
  cbn [split]. change (eqb_char "/" "/") with true. cbv iota.
  rewrite (split_app_no_separator _ _ Hsegment), (IH Hrest). by rewrite app_empty_r.
Qed.

Lemma filter_nonEmpty_segments (segments : list string) :
  forallb isSegment segments = true -> List.filter nonEmpty segments = segments.
Proof.
  induction segments as [|segment rest IH]; [done|].
  cbn [forallb]. intros [Hsegment Hrest]%andb_true_iff.
  apply andb_true_iff in Hsegment as [Hnonempty _].
  cbn [List.filter]. by rewrite Hnonempty, (IH Hrest).
Qed.

Lemma appendParts_skips (before after : list string) (p name : string) :
  isPlaceholder p = true -> after <> [] ->
  appendParts (before ++ p :: after) name = appendParts (before ++ after) name.
Proof.
  intros Hp Hafter. revert name. induction before as [|part before IH]; intros name.
  - cbn [app appendParts]. cbv zeta. unfold isPlaceholder in Hp. rewrite Hp.
    by destruct after.
  - cbn [app appendParts]. cbv zeta.
    destruct (startsWithChar "{" part && endsWithChar "}" part); [|apply IH].
    destruct before as [|? ?]; destruct after as [|? ?]; try done; apply IH.
Qed.

(** A placeholder segment that is not the last segment of the path adds
    nothing to the generated identifier: the identifier is that of the path
    without the segment. So the operations of [/users/{id}/posts],
    [/users/{userId}/posts] and [/users/posts] get the same generated
    identifier for the same method. *)
Theorem inner_placeholders_are_ignored (method : string) (before after : list string)
    (p : string) :
  forallb isSegment (before ++ p :: after) = true ->
  isPlaceholder p = true ->
  after <> [] ->
  generateOperationId method (pathOf (before ++ p :: after))
    = generateOperationId method (pathOf (before ++ after)).
Proof.
  intros Hsegments Hp Hafter.
  assert (Hsegments' : forallb isSegment (before ++ after) = true).
  { rewrite forallb_app in Hsegments |- *. cbn [forallb] in Hsegments.
    apply andb_true_iff in Hsegments as [-> [_ ->]%andb_true_iff]. done. }
  unfold generateOperationId.
  rewrite !split_pathOf by done. cbn [List.filter nonEmpty].
  rewrite !filter_nonEmpty_segments by done.
  by rewrite appendParts_skips.
Qed.

Lemma inner_placeholders_are_ignored_witness :
  generateOperationId "get" (pathOf (["users"] ++ "{userId}" :: ["posts"]))
    = generateOperationId "get" (pathOf (["users"] ++ ["posts"])).
Proof.
  by apply (inner_placeholders_are_ignored "get" ["users"] ["posts"] "{userId}").
Defined.

Lemma toLowerChar_idem (c : ascii) : toLowerChar (toLowerChar c) = toLowerChar c.
Proof. destruct c as [[] [] [] [] [] [] [] []]; reflexivity. Qed.

Lemma toLowerCase_idem (s : string) : toLowerCase (toLowerCase s) = toLowerCase s.
Proof. unfold toLowerCase. rewrite map_map. apply map_ext, toLowerChar_idem. Qed.

Lemma toLowerChar_eqb (c d : ascii) :
  isUpper d = false -> isLower d = false ->
  eqb_char (toLowerChar c) d = eqb_char c d /\ eqb_char d (toLowerChar c) = eqb_char d c.
Proof.
  intros Hupper Hlower. unfold eqb_char.
  destruct (Ascii.eqb_spec c d) as [->|Hne].
  - unfold toLowerChar. rewrite Hupper. by rewrite Ascii.eqb_refl.
  - rewrite (Ascii.eqb_sym d c), (proj2 (Ascii.eqb_neq c d) Hne).
    assert (Hne' : toLowerChar c <> d).
    { intros <-. revert Hupper Hlower Hne. clear.
      destruct c as [[] [] [] [] [] [] [] []]; vm_compute; congruence. }
    by rewrite (Ascii.eqb_sym d), (proj2 (Ascii.eqb_neq _ d) Hne').
Qed.

Lemma split_toLowerCase (s : string) :
  split "/" (toLowerCase s) = List.map toLowerCase (split "/" s).
Proof.
  induction s as [|c s IH]; [done|].
  change (toLowerCase (String c s)) with (String (toLowerChar c) (toLowerCase s)).
  cbn [split]. rewrite (proj1 (toLowerChar_eqb c "/" eq_refl eq_refl)), IH.
  destruct (eqb_char c "/"); [done|]. by destruct (split "/" s).
Qed.

Lemma startsWithChar_toLowerCase (d : ascii) (s : string) :
  isUpper d = false -> isLower d = false ->
  startsWithChar d (toLowerCase s) = startsWithChar d s.
Proof. intros Hupper Hlower. destruct s as [|c s]; [done|]. cbn. by apply toLowerChar_eqb. Qed.

Lemma endsWithChar_toLowerCase (d : ascii) (s : string) :
  isUpper d = false -> isLower d = false ->
  endsWithChar d (toLowerCase s) = endsWithChar d s.
Proof.
  intros Hupper Hlower. induction s as [|c s IH]; [done|].
  change (toLowerCase (String c s)) with (String (toLowerChar c) (toLowerCase s)).
  destruct s as [|c' s]; [cbn; by apply toLowerChar_eqb|].
  change (toLowerCase (String c' s)) with (String (toLowerChar c') (toLowerCase s)) in *.
  exact IH.
Qed.

Lemma titleCase_toLowerCase (s : string) : titleCase (toLowerCase s) = titleCase s.
Proof. unfold titleCase. by rewrite toLowerCase_idem. Qed.

Lemma appendParts_toLowerCase (parts : list string) (name : string) :
  appendParts (List.map toLowerCase parts) name = appendParts parts name.
Proof.
  revert name. induction parts as [|part rest IH]; intros name; [done|].
  cbn [List.map appendParts]. cbv zeta.
  rewrite startsWithChar_toLowerCase, endsWithChar_toLowerCase, titleCase_toLowerCase, !IH
    by done.
  by destruct rest.
Qed.

Lemma filter_nonEmpty_toLowerCase (parts : list string) :
  List.filter nonEmpty (List.map toLowerCase parts)
    = List.map toLowerCase (List.filter nonEmpty parts).
Proof.
  induction parts as [|part rest IH]; [done|].
  cbn [List.map List.filter]. rewrite IH. by destruct part.
Qed.

(** The generated identifier does not depend on the case of the letters of
    the method and of the path: it is the one of the lower-cased method and
    path. So two paths that differ in case only, as [/userProfiles] and
    [/userprofiles], get the same generated identifier, and the capitals
    inside a path segment are lost. *)
Theorem generated_identifier_ignores_case (method path : string) :
  generateOperationId method path
    = generateOperationId (toLowerCase method) (toLowerCase path).
Proof.
  unfold generateOperationId.
  by rewrite split_toLowerCase, filter_nonEmpty_toLowerCase, appendParts_toLowerCase,
    toLowerCase_idem.
Qed.

End GeneratedIdentifiers.

(** ** More credentials *)
Section MoreCredentials.
Import Security.

Lemma isSet_mono (env env' : Env) (name : string) :
  env ⊆ env' -> isSet env name = true -> isSet env' name = true.
Proof.
  intros Hsub. unfold isSet.
  destruct (env !! name) as [v|] eqn:Hv; [|done].
  eapply lookup_weaken in Hv; [|exact Hsub]. unfold Env in *. by rewrite Hv.
Qed.

Lemma schemeAvailable_mono (env env' : Env) (schemes : gmap string SecurityScheme)
    (schemeName : string) :
  env ⊆ env' ->
  schemeAvailable env schemes schemeName = true ->
  schemeAvailable env' schemes schemeName = true.
Proof.
  intros Hsub. unfold schemeAvailable. cbv zeta.
  destruct (schemes !! schemeName) as [scheme|]; [|done].
  repeat match goal with
         | |- context [if String.eqb ?a ?b then _ else _] => destruct (String.eqb a b)
         | |- context [if httpSchemeIs ?a ?b then _ else _] => destruct (httpSchemeIs a b)
         end; try done.
  - apply isSet_mono, Hsub.
  - apply isSet_mono, Hsub.
  - rewrite !andb_true_iff. intros [? ?]. split; by eapply isSet_mono.
  - destruct (isSet env (kindName OAUTH_TOKEN +:+ "_" +:+ sanitizedName schemeName)) eqn:Htoken.
    + intros _. by rewrite (isSet_mono _ _ _ Hsub Htoken).
    + destruct (isSet env (kindName OAUTH_CLIENT_ID +:+ "_" +:+ sanitizedName schemeName)
                && isSet env (kindName OAUTH_CLIENT_SECRET +:+ "_" +:+ sanitizedName schemeName))
        eqn:Hclient; [|done].
      apply andb_true_iff in Hclient as [Hid Hsecret].
      rewrite (isSet_mono _ _ _ Hsub Hid), (isSet_mono _ _ _ Hsub Hsecret).
      intros ->. by destruct (isSet env' _).
  - apply isSet_mono, Hsub.
Qed.

Lemma requirementMet_mono (env env' : Env) (schemes : gmap string SecurityScheme)
    (req : SecurityRequirementObject) :
  env ⊆ env' ->
  requirementMet env schemes req = true ->
  requirementMet env' schemes req = true.
Proof.
  intros Hsub. unfold requirementMet. rewrite !forallb_forall.
  intros Hall entry Hin. eapply schemeAvailable_mono; [exact Hsub|by apply Hall].
Qed.

(** Setting more environment variables never loses the security of a tool:
    if a requirement is applied in an environment, then in every
    environment that has the same variables and more, one is applied as
    well, and it is that requirement or one declared before it. *)
Theorem more_credentials_keep_security (env env' : Env)
    (schemes : gmap string SecurityScheme)
    (securityRequirements : list SecurityRequirementObject)
    (req : SecurityRequirementObject) :
  env ⊆ env' ->
  appliedSecurity env schemes securityRequirements = Some req ->
  exists req' before after,
    appliedSecurity env' schemes securityRequirements = Some req' /\
    securityRequirements = before ++ req' :: after /\
    req ∈ req' :: after.
Proof.
  intros Hsub. unfold appliedSecurity.
  induction securityRequirements as [|first rest IH]; [done|].
  cbn [List.find].
  destruct (requirementMet env' schemes first) eqn:Hfirst'.
  - intros Hfound. exists first, [], rest. split; [done|]. split; [done|].
    destruct (requirementMet env schemes first); [apply elem_of_cons; left; congruence|].
    apply elem_of_cons. right. apply list_elem_of_In. by apply find_some in Hfound as [? _].
  - destruct (requirementMet env schemes first) eqn:Hfirst.
    + by rewrite (requirementMet_mono _ _ _ _ Hsub Hfirst) in Hfirst'.
    + intros Hfound. destruct (IH Hfound) as (req' & before & after & Hfound' & -> & Hin).
      by exists req', (first :: before), after.
Qed.

Lemma more_credentials_keep_security_witness :
  exists req' before after,
    appliedSecurity ResolverSamples.bothSet Petstore.securitySchemes ResolverSamples.keyOrOAuth = Some req' /\
    ResolverSamples.keyOrOAuth = before ++ req' :: after /\
    [("petstore_auth", [])] ∈ req' :: after.
Proof.
  apply (more_credentials_keep_security ResolverSamples.tokenSet ResolverSamples.bothSet
           Petstore.securitySchemes ResolverSamples.keyOrOAuth [("petstore_auth", [])]).
  - apply insert_subseteq. by vm_compute.
  - by vm_compute.
Defined.

End MoreCredentials.
